(** * Verification of the acronym parser (acronym_parser/__init__.py)

    A shallow embedding of the tokenizer, the bracket validator, the
    acronym-shape classifier, the complex-acronym merger, the alignment
    engine, the definition normalizer and the inline substitution, followed
    by the properties stated about them.

    Python [str] values are modelled as [list ascii]: a text is the list of
    its code points, taken below 256.  The [dict] of [set]s that
    [mark_acronyms] returns is a [gmap] of [gset]s.  The sets of token
    indices inside the alignment engine are iterated by the code, in an
    order that Python leaves open; the engine is therefore modelled over an
    arbitrary order of iteration. *)

From stdpp Require Import gmap strings list sorting.
From Stdlib Require Import Ascii ZArith Lia.

Local Open Scope nat_scope.

(** ** Texts and characters *)

Abbreviation str := (list ascii).

(** Literals: [s "EGFR"] is the text [EGFR]. *)
Definition s (lit : string) : str := String.list_ascii_of_string lit.

Module Chars.

Definition code (c : ascii) : nat := nat_of_ascii c.

Definition in_range (lo hi : nat) (c : ascii) : bool :=
  (lo <=? code c) && (code c <=? hi).

(** [\s] of Python's [re] on [str], and the characters removed by
    [str.strip()] and [str.split()]: tab to carriage return, the four
    information separators, space, NEL and the no-break space. *)
Definition is_space (c : ascii) : bool :=
  in_range 9 13 c || in_range 28 32 c || (code c =? 133) || (code c =? 160).

(** [[a-z]] and [[A-Z]] of the regular expressions. *)
Definition is_az (c : ascii) : bool := in_range 97 122 c.
Definition is_AZ (c : ascii) : bool := in_range 65 90 c.
Definition is_alpha (c : ascii) : bool := is_az c || is_AZ c.

(** [str.lower()] on one character: the ASCII capitals and the Latin-1
    capitals (all of 192..222 but the multiplication sign 215). *)
Definition lower (c : ascii) : ascii :=
  if is_AZ c || (in_range 192 222 c && negb (code c =? 215))
  then ascii_of_nat (code c + 32) else c.

Definition eqb (a b : ascii) : bool := Ascii.eqb a b.

(** The line feed. *)
Definition LF : ascii := "010"%char.

Definition one_of (cs : str) (c : ascii) : bool := existsb (eqb c) cs.

End Chars.

Definition lower (w : str) : str := map Chars.lower w.

Definition str_eqb (a b : str) : bool := bool_decide (a = b).

(** [str.strip()]. *)
Fixpoint lstrip (w : str) : str :=
  match w with
  | c :: w' => if Chars.is_space c then lstrip w' else w
  | [] => []
  end.

Definition strip (w : str) : str := rev (lstrip (rev (lstrip w))).

(** [needle in hay] on [str]: [needle] occurs as a contiguous run. *)
Fixpoint starts_with (needle hay : str) : bool :=
  match needle, hay with
  | [], _ => true
  | _ :: _, [] => false
  | a :: needle', b :: hay' => Chars.eqb a b && starts_with needle' hay'
  end.

Fixpoint contains (needle hay : str) : bool :=
  starts_with needle hay ||
  match hay with
  | [] => false
  | _ :: hay' => contains needle hay'
  end.

(** ** Constants *)

Definition STOP_WORDS : list str :=
  [s "and"; s "or"; s "a"; s "the"; s "to"; s "of"; s "for"; s "not"; s "nor"].

Definition in_stop_words (w : str) : bool := existsb (str_eqb w) STOP_WORDS.

Definition MAX_ACRONYM_LENGTH : nat := 10.

(** WORD_SPLIT_PATTERN = [(\s+|,|;|\.|\(|\)|{|}|:|-)].  Its alternatives
    start with different characters, so a match at a position is decided
    by the character there: a white space starts the longest run of white
    space, one of the punctuation marks matches alone. *)
Definition is_split_punct (c : ascii) : bool := Chars.one_of (s ",;.(){}:-") c.

Definition is_split_char (c : ascii) : bool := Chars.is_space c || is_split_punct c.

(** [re.match(WORD_SPLIT_PATTERN, word)]: a match at the start of [word]. *)
Definition re_match_split (word : str) : bool :=
  match word with
  | [] => false
  | c :: _ => is_split_char c
  end.

(** ** Regular expressions, by derivatives

    [looks_like_acronym] asks whether its anchored pattern matches the whole
    word; that is membership of the word in the pattern's language. *)

Inductive regex : Type :=
| Void : regex
| Eps : regex
| Class (p : ascii -> bool) : regex
| Seq (r1 r2 : regex) : regex
| Alt (r1 r2 : regex) : regex
| Star (r : regex) : regex.

Definition Opt (r : regex) : regex := Alt r Eps.
Definition Chr (c : ascii) : regex := Class (Chars.eqb c).

Fixpoint nullable (r : regex) : bool :=
  match r with
  | Void => false
  | Eps => true
  | Class _ => false
  | Seq r1 r2 => nullable r1 && nullable r2
  | Alt r1 r2 => nullable r1 || nullable r2
  | Star _ => true
  end.

Fixpoint deriv (c : ascii) (r : regex) : regex :=
  match r with
  | Void => Void
  | Eps => Void
  | Class p => if p c then Eps else Void
  | Seq r1 r2 =>
      if nullable r1 then Alt (Seq (deriv c r1) r2) (deriv c r2)
      else Seq (deriv c r1) r2
  | Alt r1 r2 => Alt (deriv c r1) (deriv c r2)
  | Star r1 => Seq (deriv c r1) (Star r1)
  end.

Fixpoint full_match (r : regex) (w : str) : bool :=
  match w with
  | [] => nullable r
  | c :: w' => full_match (deriv c r) w'
  end.

(** [$] at the end of a pattern (no MULTILINE flag): the end of the word,
    or just before a line feed that ends the word. *)
Definition at_end : regex := Opt (Chr Chars.LF).

(** [^[a-z]?[a-z]?[A-Z][a-zA-Z]*[-/]?[a-zA-Z]*[A-Z][a-z]?s?$] *)
Definition acronym_pattern : regex :=
  Seq (Opt (Class Chars.is_az))
 (Seq (Opt (Class Chars.is_az))
 (Seq (Class Chars.is_AZ)
 (Seq (Star (Class Chars.is_alpha))
 (Seq (Opt (Class (Chars.one_of (s "-/"))))
 (Seq (Star (Class Chars.is_alpha))
 (Seq (Class Chars.is_AZ)
 (Seq (Opt (Class Chars.is_az))
 (Seq (Opt (Chr "s"%char))
      at_end)))))))).

Definition looks_like_acronym (word : str) : bool :=
  if MAX_ACRONYM_LENGTH <? length word then false
  else full_match acronym_pattern word.

(** ** Tokens *)

Record WordMetadata : Type := mkWord {
  text : str;
  acronym_like : bool;
  word_like : bool;
  sentence_number : nat;
  suffix : bool
}.

(** ** Tokenizer *)

(** [re.split(WORD_SPLIT_PATTERN, text)].  The pattern is one capture
    group, so the result alternates the pieces between the matches with the
    matches themselves: piece, separator, piece, ..., piece.  The scan keeps
    the token being read in [cur]; [in_space] says that [cur] is a run of
    white space (a match of [\s+] still growing) and not a piece. *)
Fixpoint re_split_scan (in_space : bool) (cur : str) (rest : str) : list str :=
  match rest with
  | [] => if in_space then [cur; []] else [cur]
  | c :: rest' =>
      if Chars.is_space c then
        if in_space then re_split_scan true (cur ++ [c]) rest'
        else cur :: re_split_scan true [c] rest'
      else if is_split_punct c then
        if in_space then cur :: [] :: [c] :: re_split_scan false [] rest'
        else cur :: [c] :: re_split_scan false [] rest'
      else
        if in_space then cur :: re_split_scan false [c] rest'
        else re_split_scan false (cur ++ [c]) rest'
  end.

Definition re_split (txt : str) : list str := re_split_scan false [] txt.

(** The loop of [split_words]: [todo] is what is left of [words] from
    position [pos] on, [sentence_count] the running sentence counter. *)
Fixpoint split_words_loop (words : list str) (pos sentence_count : nat)
    (todo : list str) : list WordMetadata :=
  match todo with
  | [] => []
  | word :: todo' =>
      let wl := negb (re_match_split word) in
      let acronym_like :=
        (0 <? pos) && (pos <? length words - 1) &&
        bool_decide (words !! (pos - 1) = Some (s "(")) &&
        bool_decide (words !! (pos + 1) = Some (s ")")) &&
        looks_like_acronym word in
      let is_suffix :=
        (0 <? pos) && bool_decide (words !! (pos - 1) = Some (s "-")) in
      mkWord word acronym_like (wl && negb is_suffix) sentence_count is_suffix
      :: split_words_loop words (S pos)
           (if str_eqb word (s ".") then S sentence_count else sentence_count)
           todo'
  end.

Definition split_words (txt : str) : list WordMetadata :=
  let words := re_split txt in
  split_words_loop words 0 0 words.

Definition texts (words : list WordMetadata) : list str := map text words.

(** [''.join(w.text for w in words)] *)
Definition join (words : list WordMetadata) : str := concat (texts words).

(** ** Bracket validator *)

(** [bracket_closes]: the opener that each closer closes. *)
Definition bracket_closes (c : ascii) : option ascii :=
  if Chars.eqb c "]" then Some "["%char
  else if Chars.eqb c "}" then Some "{"%char
  else if Chars.eqb c ")" then Some "("%char
  else None.

(** The loop of [bracket_match]; the top of [bracket_stack] is its head. *)
Fixpoint bracket_scan (bracket_stack : list ascii) (txt : str) : bool :=
  match txt with
  | [] => match bracket_stack with [] => true | _ :: _ => false end
  | c :: rest =>
      if Chars.one_of (s "([{") c then bracket_scan (c :: bracket_stack) rest
      else
        match bracket_closes c with
        | Some opener =>
            match bracket_stack with
            | [] => false
            | top :: below =>
                if Chars.eqb top opener then bracket_scan below rest else false
            end
        | None => bracket_scan bracket_stack rest
        end
  end.

Definition bracket_match (txt : str) : bool := bracket_scan [] txt.

(** ** Complex-acronym merger *)

Definition merged_text (word1 hyphen word2 : WordMetadata) : str :=
  text word1 ++ text hyphen ++ text word2.

Definition merge_window (open_br word1 hyphen word2 close_br : WordMetadata) : bool :=
  str_eqb (text open_br) (s "(") &&
  str_eqb (text close_br) (s ")") &&
  (str_eqb (text hyphen) (s "-") || str_eqb (text hyphen) (s "/")) &&
  looks_like_acronym (merged_text word1 hyphen word2).

Fixpoint merge_complex_acronyms (words : list WordMetadata) : list WordMetadata :=
  match words with
  | open_br :: ((word1 :: hyphen :: word2 :: close_br :: after) as tl) =>
      if merge_window open_br word1 hyphen word2 close_br then
        open_br
        :: mkWord (merged_text word1 hyphen word2) true true (sentence_number word1) false
        :: close_br :: merge_complex_acronyms after
      else open_br :: merge_complex_acronyms tl
  | w :: tl => w :: merge_complex_acronyms tl
  | [] => []
  end.

(** ** Alignment engine *)

(** [words[a : b]] for [0 <= a] and [0 <= b]. *)
Definition slice {A : Type} (a b : nat) (l : list A) : list A :=
  take (b - a) (drop a l).

Definition countb {A : Type} (p : A -> bool) (l : list A) : nat :=
  length (List.filter p l).

(** An alignment path: per letter of the acronym a token index, or [None]
    for a letter that is missing. *)
Abbreviation path := (list (option nat)).

Definition is_none {A : Type} (o : option A) : bool :=
  match o with None => true | Some _ => false end.

Definition non_nones (p : path) : list nat := omap id p.

Definition count_nones (p : path) : nat := countb is_none p.

(** [non_none_apply(list_like, max)] and [non_none_apply(list_like, min)]. *)
Definition non_none_max (p : path) : option nat :=
  match non_nones p with
  | [] => None
  | v :: vs => Some (foldl Nat.max v vs)
  end.

Definition non_none_min (p : path) : option nat :=
  match non_nones p with
  | [] => None
  | v :: vs => Some (foldl Nat.min v vs)
  end.

(** A word that counts for the backward walk: word-like and no stop word. *)
Definition real_word (w : WordMetadata) : bool :=
  word_like w && negb (in_stop_words (text w)).

(** The first character of the token's text, lower-cased, is the letter,
    lower-cased. *)
Definition starts_with_letter (w : WordMetadata) (letter : ascii) : bool :=
  match text w with
  | [] => false
  | c :: _ => Chars.eqb (Chars.lower c) (Chars.lower letter)
  end.

(** Key of the choice of the best path:
    [(count_nones(p), 1 - max(p), max(p) - min(p))], compared as tuples. *)
Definition path_key (p : path) : nat * Z * Z :=
  let hi := Z.of_nat (default 0 (non_none_max p)) in
  let lo := Z.of_nat (default 0 (non_none_min p)) in
  (count_nones p, (1 - hi)%Z, (hi - lo)%Z).

Definition key_ltb (k1 k2 : nat * Z * Z) : bool :=
  let '(a1, b1, c1) := k1 in
  let '(a2, b2, c2) := k2 in
  (a1 <? a2) ||
  ((a1 =? a2) && ((b1 <? b2)%Z || ((b1 =? b2)%Z && (c1 <? c2)%Z))).

(** [min(filtered_paths, key=...)]: the first path of least key. *)
Fixpoint min_by_key (best : path) (others : list path) : path :=
  match others with
  | [] => best
  | p :: others' =>
      min_by_key (if key_ltb (path_key p) (path_key best) then p else best) others'
  end.

Section Alignment.

(** The order in which a Python [set] yields its elements is not fixed
    by the language.  [set_iter] is that order: it is given the elements
    in the order they were added and returns them in the order of
    iteration. *)
Variable set_iter : forall A : Type, list A -> list A.

Variable words : list WordMetadata.
Variable max_intra_word_letters : nat.

Definition sentence_at (i : nat) : option nat := sentence_number <$> words !! i.
Definition text_at (i : nat) : str := default [] (text <$> words !! i).
Definition word_like_at (i : nat) : bool := default false (word_like <$> words !! i).

(** The count of [words_covered] for the span from [words_pos] up to the
    acronym. *)
Definition words_covered (words_pos acronym_pos : nat) : nat :=
  countb real_word (slice words_pos acronym_pos words).

(** [letter_index_matches[letter_pos].add(words_pos)] for each letter that
    the token at [words_pos] starts with.  A set of indices is kept as a
    list without repetition; the walk goes backward, so the lists are in
    increasing order. *)
Fixpoint add_matches (words_pos : nat) (letters : str)
    (letter_index_matches : list (list nat)) : list (list nat) :=
  match letters, letter_index_matches with
  | letter :: letters', found :: others =>
      (if default false ((fun w => starts_with_letter w letter) <$> words !! words_pos)
       then words_pos :: found else found)
      :: add_matches words_pos letters' others
  | _, _ => letter_index_matches
  end.

(** The backward walk [for words_pos in range(acronym_pos - 2, -1, -1)]:
    [collect_matches acronym_pos letters k m] runs it from
    [words_pos = k - 1] down. *)
Fixpoint collect_matches (acronym_pos : nat) (letters : str) (k : nat)
    (letter_index_matches : list (list nat)) : list (list nat) :=
  match k with
  | 0 => letter_index_matches
  | S words_pos =>
      if negb (bool_decide (sentence_at words_pos = sentence_at acronym_pos))
      then letter_index_matches
      else if length letters + max_intra_word_letters <? words_covered words_pos acronym_pos
      then letter_index_matches
      else collect_matches acronym_pos letters words_pos
             (add_matches words_pos letters letter_index_matches)
  end.

Definition letter_matches (acronym_pos : nat) (letters : str) : list (list nat) :=
  collect_matches acronym_pos letters (acronym_pos - 1) (map (fun _ => []) letters).

(** [curr_max is None or choice is None or choice > curr_max] *)
Definition continuation_allowed (curr_max choice : option nat) : bool :=
  match curr_max, choice with
  | None, _ => true
  | _, None => true
  | Some m, Some c => m <? c
  end.

(** One round of the path enumeration: every path is continued with every
    allowed element of [choices | {None}]. *)
Definition extend_paths (paths : list path) (choices : list nat) : list path :=
  flat_map
    (fun p =>
       let curr_max := non_none_max p in
       map (fun choice => p ++ [choice])
         (List.filter (continuation_allowed curr_max)
            (set_iter _ (map Some choices ++ [None]))))
    paths.

(** [[[c] for c in letter_index_matches[0] if words[c].word_like]] *)
Definition start_paths (first : list nat) : list path :=
  map (fun c => [Some c]) (List.filter word_like_at (set_iter _ first)).

Definition enumerate_paths (first : list nat) (others : list (list nat)) : list path :=
  foldl extend_paths (start_paths first) others.

(** [sum(m.word_like for m in words[path_start : path_end + 1])] *)
Definition total_words (path_start path_end : nat) : nat :=
  countb word_like (slice path_start (path_end + 1) words).

(** The test of the filter loop: [true] when the path is appended to
    [filtered_paths].  A path without any index does not occur: every
    enumerated path starts with an index. *)
Definition path_kept (p : path) : bool :=
  let missed_letters := count_nones p in
  if max_intra_word_letters <? missed_letters then false
  else
    match non_none_min p, non_none_max p with
    | Some path_start, Some path_end =>
        if negb (bracket_match (join (slice path_start (path_end + 1) words)))
        then false
        else total_words path_start path_end
             <=? length p - missed_letters + max_intra_word_letters
    | _, _ => false
    end.

Definition filter_paths (paths : list path) : list path := List.filter path_kept paths.

(** The interpolation loop over [i = 1, 2, ...]: [todo] holds the pairs
    [(match, letter)] from position [i] on, [best_path] is the list being
    updated in place. *)
Fixpoint interpolate (i : nat) (todo : list (option nat * ascii)) (best_path : path) : path :=
  match todo with
  | [] => best_path
  | (Some _, _) :: todo' => interpolate (S i) todo' best_path
  | (None, letter) :: todo' =>
      match best_path !! (i - 1) with
      | Some (Some prev_choice) =>
          if in_stop_words (lower (text_at prev_choice))
          then interpolate (S i) todo' best_path
          else if (1 <? length (text_at prev_choice))
                  && contains [Chars.lower letter] (drop 1 (text_at prev_choice))
          then interpolate (S i) todo' (<[i := Some prev_choice]> best_path)
          else interpolate (S i) todo' best_path
      | _ => best_path
      end
  end.

(** The best path for the acronym at [acronym_pos], after interpolation;
    [None] when the loop body ends early ([continue], or no path passes
    the filter).  The text of an acronym-like token is never empty. *)
Definition best_path_for (acronym_pos : nat) (letters : str) : option path :=
  match letter_matches acronym_pos letters with
  | [] => None
  | first :: others =>
      match first with
      | [] => None
      | _ :: _ =>
          match filter_paths (enumerate_paths first others) with
          | [] => None
          | p :: ps =>
              let best_path := min_by_key p ps in
              Some (interpolate 1 (drop 1 (zip best_path letters)) best_path)
          end
      end
  end.

(** The span [words[min(best_path) : acronym_pos - 1]] of the definition
    that is emitted for the acronym at [acronym_pos], as its two bounds. *)
Definition definition_span (acronym_pos : nat) (letters : str) : option (nat * nat) :=
  match best_path_for acronym_pos letters with
  | Some best_path =>
      if count_nones best_path =? 0
      then (fun start => (start, acronym_pos - 1)) <$> non_none_min best_path
      else None
  | None => None
  end.

Definition find_definition (acronym_pos : nat) (letters : str) : option str :=
  (fun span => strip (join (slice span.1 span.2 words)))
    <$> definition_span acronym_pos letters.

(** [acronyms.setdefault(acronym.text, set()).add(defn)] *)
Definition add_definition (acronym defn : str) (acronyms : gmap str (gset str))
    : gmap str (gset str) :=
  <[acronym := default ∅ (acronyms !! acronym) ∪ {[defn]}]> acronyms.

(** The body of the loop over [enumerate(words)]. *)
Definition mark_step (acronyms : gmap str (gset str)) (item : nat * WordMetadata)
    : gmap str (gset str) :=
  let '(acronym_pos, acronym) := item in
  if acronym_like acronym then
    match find_definition acronym_pos (text acronym) with
    | Some defn => add_definition (text acronym) defn acronyms
    | None => acronyms
    end
  else acronyms.

Definition mark_all : gmap str (gset str) :=
  foldl mark_step ∅ (imap (fun pos w => (pos, w)) words).

End Alignment.

Definition mark_acronyms (set_iter : forall A : Type, list A -> list A)
    (txt : str) (max_intra_word_letters : nat) : gmap str (gset str) :=
  mark_all set_iter (merge_complex_acronyms (split_words txt)) max_intra_word_letters.

(** The iteration that yields the elements in the order they were added. *)
Definition insertion_order (A : Type) (l : list A) : list A := l.

(** The iteration that yields them last added first. *)
Definition reverse_order (A : Type) (l : list A) : list A := rev l.

(** ** Definition normalizer *)

Definition SUBS : list (str * str) :=
  [ (s "carcinoma", s "cancer");
    (s "carcinomas", s "cancer");
    (s "florescence", s "fluorescent");
    (s "florescent", s "fluorescent");
    (s "stranded", s "strand");
    (s "indices", s "index");
    (s "polimerase", s "polymerase");
    (s "remission", s "response");
    (s "microarray", s "micro array");
    (s "gammapathies", s "gammopathies");
    (s "gammopaties", s "gammopathies");
    (s "gammapathy", s "gammopathy");
    (s "progress", s "progression");
    (s "linda", s "lindau") ].

(** [SUBS.get(w, w)] *)
Fixpoint subs_get (table : list (str * str)) (w : str) : str :=
  match table with
  | [] => w
  | (k, v) :: table' => if str_eqb k w then v else subs_get table' w
  end.

(** [word] without the ending [ending], when it has it. *)
Definition strip_ending (ending word : str) : option str :=
  let n := length word - length ending in
  if str_eqb (drop n word) ending && (length ending <=? length word)
  then Some (take n word) else None.

(** [re.sub(patt + '$', rep, word)] where [at_the_end] rewrites a word on
    which [patt] matches at the very end.  [$] holds at the end of the word
    and before a line feed that ends it; none of the patterns can match in
    both places, so at most one replacement is made. *)
Definition re_sub_at_end (at_the_end : str -> option str) (word : str) : str :=
  match at_the_end word with
  | Some word' => word'
  | None =>
      match strip_ending [Chars.LF] word with
      | None => word
      | Some body =>
          match at_the_end body with
          | Some body' => body' ++ [Chars.LF]
          | None => word
          end
      end
  end.

(** A rule [(patt, rep)] whose pattern is a fixed ending. *)
Definition sub_ending (patt rep : str) : str -> str :=
  re_sub_at_end (fun word => (fun stem => stem ++ rep) <$> strip_ending patt word).

(** The rule [(r'([^ios])s', r'\1')]: a final [s] after a character other
    than [i], [o] and [s] is dropped. *)
Definition sub_plural_s : str -> str :=
  re_sub_at_end (fun word =>
    match rev word with
    | last :: before :: stem =>
        if Chars.eqb last "s" && negb (Chars.one_of (s "ios") before)
        then Some (rev (before :: stem)) else None
    | _ => None
    end).

Definition singular_rules : list (str -> str) :=
  [ sub_ending (s "'s") (s "");
    sub_ending (s "exes") (s "ex");
    sub_ending (s "ses") (s "s");
    sub_ending (s "ies") (s "y");
    sub_plural_s;
    sub_ending (s "ated") (s "ating");
    sub_ending (s "iency") (s "ient");
    sub_ending (s "ced") (s "cing");
    sub_ending (s "ally") (s "al");
    sub_ending (s "tation") (s "tating");
    sub_ending (s "ence") (s "ent");
    sub_ending (s "ios") (s "io") ].

Definition convert_to_singular (word : str) : str :=
  foldl (fun w rule => rule w) word singular_rules.

(** [re.sub(r'(-|=|/)', ' ', defn)] and [re.sub(r'[,]', ' ', defn)]. *)
Definition replace_chars (cs : str) (defn : str) : str :=
  map (fun c => if Chars.one_of cs c then " "%char else c) defn.

(** [defn.split()]: the maximal runs without white space. *)
Fixpoint split_scan (cur : str) (rest : str) : list str :=
  match rest with
  | [] => match cur with [] => [] | _ :: _ => [cur] end
  | c :: rest' =>
      if Chars.is_space c then
        match cur with
        | [] => split_scan [] rest'
        | _ :: _ => cur :: split_scan [] rest'
        end
      else split_scan (cur ++ [c]) rest'
  end.

Definition split (defn : str) : list str := split_scan [] defn.

Definition normalize_defn (defn : str) : str :=
  let defn := strip (lower defn) in
  let defn := replace_chars (s "-=/") defn in
  let defn := replace_chars (s ",") defn in
  let words := split defn in
  let words := map (subs_get SUBS) words in
  let words := map convert_to_singular words in
  let words := List.filter (fun w => negb (in_stop_words w)) words in
  concat words.

(** ** Inline substitution *)

Section Substitution.

(** [re.sub(pattern, repl, string, 1)] of Python's library: the result,
    or [None] when the call raises (the pattern or the template is not
    well formed). *)
Variable re_sub_first : str -> str -> str -> option str.

Definition acronym_regex (acronym : str) : str :=
  s "(\b" ++ acronym ++ s "s?\b)".

Definition annotation (defn : str) : str :=
  s "\1 (" ++ defn ++ s ")".

Definition sub_acronym (txt acronym defn : str) : option str :=
  if contains defn txt then Some txt
  else re_sub_first (acronym_regex acronym) (annotation defn) txt.

End Substitution.

(** ** Shapes of the tokens *)

(** A piece between two matches of the split pattern holds no character
    that the pattern can start on. *)
Definition is_piece (w : str) : bool := forallb (fun c => negb (is_split_char c)) w.

(** [re_split] yields pieces at the even positions and matches of the split
    pattern at the odd ones; [expect_sep] tells which one comes first. *)
Fixpoint alternates (expect_sep : bool) (ws : list str) : bool :=
  match ws with
  | [] => true
  | w :: ws' =>
      (if expect_sep then re_match_split w else is_piece w)
      && alternates (negb expect_sep) ws'
  end.

(** ** The filter, as the specification words it

    The specification describes the count of the filter as a count of the
    real words of the span.  [path_kept_spec] is [path_kept] with that
    count in the place of [total_words]. *)

Definition total_real_words (words : list WordMetadata) (path_start path_end : nat) : nat :=
  countb real_word (slice path_start (path_end + 1) words).

Definition path_kept_spec (words : list WordMetadata) (max_intra_word_letters : nat)
    (p : path) : bool :=
  let missed_letters := count_nones p in
  if max_intra_word_letters <? missed_letters then false
  else
    match non_none_min p, non_none_max p with
    | Some path_start, Some path_end =>
        if negb (bracket_match (join (slice path_start (path_end + 1) words)))
        then false
        else total_real_words words path_start path_end
             <=? length p - missed_letters + max_intra_word_letters
    | _, _ => false
    end.

(** A word-like token that is a stop word. *)
Definition stop_word (w : WordMetadata) : bool :=
  word_like w && in_stop_words (text w).

(** ** Sentences

    The token at [c] and all tokens after it, up to the one before the
    opening bracket of the acronym at [acronym_pos], carry the sentence
    number of the acronym. *)
Definition in_sentence (words : list WordMetadata) (acronym_pos c : nat) : Prop :=
  c < acronym_pos - 1 /\
  forall j, c <= j < acronym_pos - 1 -> sentence_at words j = sentence_at words acronym_pos.

(** All indices of a path satisfy [P]. *)
Definition path_forall (P : nat -> Prop) (p : path) : Prop :=
  forall c, Some c ∈ p -> P c.

(** [defn] is the definition that the loop of [mark_acronyms] emits at some
    acronym-like token with text [a], from the span [start .. stop). *)
Definition emitted_at (set_iter : forall A : Type, list A -> list A)
    (words : list WordMetadata) (max_intra_word_letters : nat) (a defn : str)
    (acronym_pos : nat) (acronym : WordMetadata) (start stop : nat) : Prop :=
  words !! acronym_pos = Some acronym /\
  acronym_like acronym = true /\
  text acronym = a /\
  definition_span set_iter words max_intra_word_letters acronym_pos a = Some (start, stop) /\
  defn = strip (join (slice start stop words)).

(** ** Independence of the order of iteration

    The order in which the sets are iterated decides the order of the
    enumerated paths, and [min] returns the first path of least key; the
    choice of the best path is free of that order when one path alone has
    the least key. *)
Definition least_key_unique (paths : list path) : bool :=
  match paths with
  | [] => true
  | p :: ps =>
      let best := min_by_key p ps in
      forallb (fun q => bool_decide (q = best) || key_ltb (path_key best) (path_key q)) paths
  end.

Definition order_free_at (words : list WordMetadata) (max_intra_word_letters : nat)
    (acronym_pos : nat) (letters : str) : bool :=
  match letter_matches words max_intra_word_letters acronym_pos letters with
  | [] => true
  | first :: others =>
      least_key_unique
        (filter_paths words max_intra_word_letters
           (enumerate_paths insertion_order words first others))
  end.

(** Every acronym-like token of [words] has at most one path of least key. *)
Definition order_free (words : list WordMetadata) (max_intra_word_letters : nat) : bool :=
  forallb
    (fun item : nat * WordMetadata =>
       negb (acronym_like item.2)
       || order_free_at words max_intra_word_letters item.1 (text item.2))
    (imap (fun pos w => (pos, w)) words).

(** ** An instance of [re.sub] for whole words

    [re_sub_word] computes [re.sub(pattern, repl, string, 1)] for the
    arguments that [sub_acronym] builds from an acronym made of ASCII
    letters and digits and from a definition without backslash: the pattern
    is [(\bACRONYMs?\b)], the template is [\1] followed by plain text.  On
    other arguments it gives [None]. *)

Definition is_alnum (c : ascii) : bool :=
  Chars.is_alpha c || Chars.in_range 48 57 c.

(** [\w] of [re] on [str], for the code points below 256. *)
Definition is_word_char (c : ascii) : bool :=
  is_alnum c || Chars.eqb c "_"
  || existsb (Nat.eqb (Chars.code c)) [170; 178; 179; 181; 185; 186; 188; 189; 190]
  || Chars.in_range 192 214 c || Chars.in_range 216 246 c || Chars.in_range 248 255 c.

(** [\b] between two neighbours; [None] is an end of the text. *)
Definition word_boundary (before after : option ascii) : bool :=
  xorb (default false (is_word_char <$> before)) (default false (is_word_char <$> after)).

(** The length of the match of [\bACRONYMs?\b] at the start of [rest],
    where [before] is the character in front of [rest]; the optional [s]
    is tried first. *)
Definition match_word (acronym : str) (before : option ascii) (rest : str) : option nat :=
  if word_boundary before (head rest) && starts_with acronym rest then
    let after := drop (length acronym) rest in
    let with_s :=
      match after with
      | c :: after' => Chars.eqb c "s" && word_boundary (Some c) (head after')
      | [] => false
      end in
    if with_s then Some (S (length acronym))
    else if word_boundary (last acronym) (head after) then Some (length acronym)
    else None
  else None.

(** The first match from the left is replaced by itself and [tail]. *)
Fixpoint sub_first_word (acronym tail : str) (before : option ascii) (rest : str) : str :=
  match match_word acronym before rest with
  | Some n => take n rest ++ tail ++ drop n rest
  | None =>
      match rest with
      | [] => []
      | c :: rest' => c :: sub_first_word acronym tail (Some c) rest'
      end
  end.

Definition strip_start (start word : str) : option str :=
  if starts_with start word then Some (drop (length start) word) else None.

Definition re_sub_word (pattern repl txt : str) : option str :=
  match strip_start (s "(\b") pattern ≫= strip_ending (s "s?\b)"), strip_start (s "\1") repl with
  | Some acronym, Some tail =>
      if negb (bool_decide (acronym = [])) && forallb is_alnum acronym
         && negb (Chars.one_of tail "\")
      then Some (sub_first_word acronym tail None txt)
      else None
  | _, _ => None
  end.

(** ** Separators in a key *)

(** The characters that the normalizer means to remove: white space, and
    the four marks [-], [=], [/] and [,]. *)
Definition is_separator_char (c : ascii) : bool :=
  Chars.is_space c || Chars.one_of (s "-=/,") c.

Definition separator_free (w : str) : bool :=
  forallb (fun c => negb (is_separator_char c)) w.

(** The words of a definition, before the table [SUBS] is applied. *)
Definition defn_words (defn : str) : list str :=
  split (replace_chars (s ",") (replace_chars (s "-=/") (strip (lower defn)))).

(** ** The language of a regular expression *)

Inductive matches : regex -> str -> Prop :=
| matches_eps : matches Eps []
| matches_class (p : ascii -> bool) (c : ascii) :
    p c = true -> matches (Class p) [c]
| matches_seq (r1 r2 : regex) (u v : str) :
    matches r1 u -> matches r2 v -> matches (Seq r1 r2) (u ++ v)
| matches_alt_l (r1 r2 : regex) (u : str) :
    matches r1 u -> matches (Alt r1 r2) u
| matches_alt_r (r1 r2 : regex) (u : str) :
    matches r2 u -> matches (Alt r1 r2) u
| matches_star_nil (r : regex) : matches (Star r) []
| matches_star_cons (r : regex) (u v : str) :
    matches r u -> matches (Star r) v -> matches (Star r) (u ++ v).

(** The characters of a word that the acronym pattern can match: the ASCII
    letters, the two joining marks, and the line feed that [$] lets pass at
    the end. *)
Definition acronym_char (c : ascii) : bool :=
  Chars.is_alpha c || Chars.one_of (s "-/") c || Chars.eqb Chars.LF c.

(** ** Balanced texts

    The texts with well-nested brackets: the empty text, a character that
    is no bracket, a balanced text between an opening bracket and the
    closing bracket of the same kind, and two balanced texts in a row. *)
Inductive balanced : str -> Prop :=
| balanced_nil : balanced []
| balanced_char (c : ascii) :
    Chars.one_of (s "([{") c = false -> bracket_closes c = None -> balanced [c]
| balanced_wrap (opener closer : ascii) (u : str) :
    bracket_closes closer = Some opener -> balanced u ->
    balanced (opener :: u ++ [closer])
| balanced_app (u v : str) : balanced u -> balanced v -> balanced (u ++ v).

(** A text that closes the open brackets of a stack, top first, with
    balanced texts in between and after. *)
Inductive closes : list ascii -> str -> Prop :=
| closes_nil (u : str) : balanced u -> closes [] u
| closes_cons (opener closer : ascii) (below : list ascii) (u rest : str) :
    balanced u -> bracket_closes closer = Some opener -> closes below rest ->
    closes (opener :: below) (u ++ closer :: rest).

(** ** Shapes of the token lists *)

(** The token that [merge_complex_acronyms] puts in the place of a window's
    three middle tokens. *)
Definition merged_word (word1 hyphen word2 : WordMetadata) : WordMetadata :=
  mkWord (merged_text word1 hyphen word2) true true (sentence_number word1) false.

Definition is_period (w : WordMetadata) : bool := str_eqb (text w) (s ".").

(** An acronym-like token has the shape of an acronym. *)
Definition acronym_shaped (w : WordMetadata) : Prop :=
  acronym_like w = true -> looks_like_acronym (text w) = true.

(** A token that is neither an opening bracket nor acronym-like. *)
Definition plain_token (w : WordMetadata) : Prop :=
  text w <> s "(" /\ acronym_like w = false.

(** ** Spans of definitions *)

(** The span from [c] to the acronym at [acronym_pos] is within the budget
    of real words of the backward walk. *)
Definition within_budget (words : list WordMetadata) (max_intra_word_letters : nat)
    (acronym_pos : nat) (letters : str) (c : nat) : Prop :=
  words_covered words c acronym_pos <= length letters + max_intra_word_letters.

(** The token at [c] starts with [letter], up to case. *)
Definition token_starts_with (words : list WordMetadata) (letter : ascii) (c : nat) : Prop :=
  default false ((fun w => starts_with_letter w letter) <$> words !! c) = true.

(** The candidates of the first letter start with the first letter. *)
Definition first_matches_start (words : list WordMetadata) (letters : str)
    (letter_index_matches : list (list nat)) : Prop :=
  match letters, letter_index_matches with
  | letter :: _, first :: _ => Forall (token_starts_with words letter) first
  | _, _ => True
  end.

(** A path that starts with the index [c0] and holds no smaller index. *)
Definition headed (c0 : nat) (p : path) : Prop :=
  (exists rest, p = Some c0 :: rest) /\ path_forall (le c0) p.

(** The four marks that the normalizer turns into spaces, in one pass. *)
Definition blank_marks (defn : str) : str := replace_chars (s "-=/,") defn.

(** * Properties *)

(** Closed equations between maps, sets and texts are decided by running
    the functions. *)
Ltac by_running := apply (bool_decide_unpack _); vm_compute; exact I.

(** ** Tokenizer *)

Lemma concat_re_split_scan in_space cur rest :
  concat (re_split_scan in_space cur rest) = cur ++ rest.
Proof.
  revert in_space cur.
  induction rest as [|c rest IH]; intros in_space cur; simpl.
  - destruct in_space; simpl; by rewrite ?app_nil_r.
  - destruct (Chars.is_space c), (is_split_punct c), in_space; simpl;
      rewrite ?IH; simpl; by rewrite <- ?app_assoc.
Qed.

Lemma texts_split_words_loop words pos sentence_count todo :
  texts (split_words_loop words pos sentence_count todo) = todo.
Proof.
  revert pos sentence_count.
  induction todo as [|word todo IH]; intros pos sentence_count; [done|].
  simpl. f_equal. apply IH.
Qed.

Lemma texts_split_words txt : texts (split_words txt) = re_split txt.
Proof. apply texts_split_words_loop. Qed.

(** C8. Tokenization is reversible: the texts of the tokens of
    [split_words], joined in order, are the input text. *)
Theorem split_words_reversible (txt : str) : join (split_words txt) = txt.
Proof.
  unfold join. rewrite texts_split_words. unfold re_split.
  by rewrite concat_re_split_scan.
Qed.

Lemma split_words_loop_lookup words pos sentence_count todo i w :
  split_words_loop words pos sentence_count todo !! i = Some w ->
  todo !! i = Some (text w) /\
  suffix w = ((0 <? pos + i) && bool_decide (words !! (pos + i - 1) = Some (s "-"))) /\
  word_like w = (negb (re_match_split (text w)) && negb (suffix w)).
Proof.
  revert pos sentence_count i.
  induction todo as [|word todo IH]; intros pos sentence_count i; [done|].
  destruct i as [|i]; simpl.
  - intros [= <-]. simpl. by rewrite Nat.add_0_r.
  - intros H. apply IH in H. by replace (pos + S i) with (S pos + i) by lia.
Qed.

Lemma split_words_lookup txt p w :
  split_words txt !! p = Some w ->
  re_split txt !! p = Some (text w) /\
  suffix w = ((0 <? p) && bool_decide (re_split txt !! (p - 1) = Some (s "-"))) /\
  word_like w = (negb (re_match_split (text w)) && negb (suffix w)).
Proof. intros H. by apply split_words_loop_lookup in H. Qed.

Lemma re_split_scan_alternates (in_space : bool) (cur rest : str) :
  (if in_space then re_match_split cur && forallb Chars.is_space cur else is_piece cur) = true ->
  alternates in_space (re_split_scan in_space cur rest) = true.
Proof.
  revert in_space cur.
  induction rest as [|c rest IH]; intros in_space cur Hcur; simpl.
  - destruct in_space; simpl; [|by rewrite Hcur].
    apply andb_true_iff in Hcur as [-> _]. done.
  - destruct (Chars.is_space c) eqn:Hsp.
    + destruct in_space; simpl.
      * apply IH. apply andb_true_iff in Hcur as [H1 H2].
        rewrite forallb_app, H2. simpl. rewrite Hsp.
        destruct cur; [done|]. simpl in *. by rewrite H1.
      * rewrite Hcur. simpl. apply IH. simpl. unfold is_split_char. by rewrite Hsp.
    + destruct (is_split_punct c) eqn:Hp.
      * destruct in_space; simpl.
        -- apply andb_true_iff in Hcur as [-> _]. simpl.
           unfold is_split_char. rewrite Hp, orb_true_r. simpl. by apply IH.
        -- rewrite Hcur. unfold is_split_char. rewrite Hp, orb_true_r. simpl.
           by apply IH.
      * destruct in_space; simpl.
        -- apply andb_true_iff in Hcur as [-> _]. simpl. apply IH. simpl.
           unfold is_split_char. by rewrite Hsp, Hp.
        -- apply IH. unfold is_piece in *. rewrite forallb_app, Hcur. simpl.
           unfold is_split_char. by rewrite Hsp, Hp.
Qed.

Lemma re_split_alternates txt : alternates false (re_split txt) = true.
Proof. by apply re_split_scan_alternates. Qed.

Lemma alternates_lookup expect_sep ws i w :
  alternates expect_sep ws = true ->
  ws !! i = Some w ->
  (if xorb expect_sep (Nat.odd i) then re_match_split w else is_piece w) = true.
Proof.
  revert expect_sep i.
  induction ws as [|w0 ws IH]; intros expect_sep i Halt Hi; [done|].
  simpl in Halt. apply andb_true_iff in Halt as [H0 Halt].
  destruct i as [|i]; simpl in Hi.
  - injection Hi as <-. simpl. by destruct expect_sep.
  - specialize (IH _ _ Halt Hi). rewrite Nat.odd_succ, <- Nat.negb_odd.
    by destruct expect_sep, (Nat.odd i).
Qed.

(** The tokens at the even positions are pieces, those at the odd positions
    are matches of the split pattern. *)
Lemma split_words_shape txt p w :
  split_words txt !! p = Some w ->
  (if Nat.odd p then re_match_split (text w) else is_piece (text w)) = true.
Proof.
  intros H. apply split_words_lookup in H as [H _].
  by apply (alternates_lookup false _ _ _ (re_split_alternates txt)) in H.
Qed.

Lemma window_lookup {A : Type} (l : list A) i k (win : list A) x :
  take (length win) (drop i l) = win -> win !! k = Some x -> l !! (i + k) = Some x.
Proof.
  intros <- H. apply lookup_take_Some in H as [H _]. by rewrite lookup_drop in H.
Qed.

(** A token [(] or [/] of the tokenizer: the first sits at an odd position,
    the second at an even one. *)
Lemma split_words_paren_odd txt p w :
  split_words txt !! p = Some w -> text w = s "(" -> Nat.odd p = true.
Proof.
  intros H Ht. apply split_words_shape in H. rewrite Ht in H.
  by destruct (Nat.odd p).
Qed.

Lemma split_words_slash_even txt p w :
  split_words txt !! p = Some w -> text w = s "/" -> Nat.odd p = false.
Proof.
  intros H Ht. apply split_words_shape in H. rewrite Ht in H.
  by destruct (Nat.odd p).
Qed.

(** C10, as the claim states it, fails: the text [/] is one token. *)
Lemma split_words_emits_slash :
  ~ (forall (txt : str) (w : WordMetadata), w ∈ split_words txt -> text w <> s "/").
Proof.
  intros H. apply (H (s "/") (mkWord (s "/") false true 0 false)); [|done].
  vm_compute. apply list_elem_of_here.
Qed.

(** C10 (amended). In every window of five tokens of the tokenizer's output
    that starts with [(], the token in the middle is not [/]: a token [/]
    is a piece, never a separator, so the [/] case of the window of
    [merge_complex_acronyms] is not met on tokenizer output.  A slash-joined
    form in brackets, such as [(AP/BP)], is one token, and it is
    acronym-like. *)
Theorem split_words_window_no_slash :
  (forall (txt : str) (i : nat) (open_br word1 hyphen word2 close_br : WordMetadata),
     take 5 (drop i (split_words txt)) = [open_br; word1; hyphen; word2; close_br] ->
     text open_br = s "(" ->
     text hyphen <> s "/") /\
  split_words (s "(AP/BP)") =
  [ mkWord [] false true 0 false; mkWord (s "(") false false 0 false;
    mkWord (s "AP/BP") true true 0 false; mkWord (s ")") false false 0 false;
    mkWord [] false true 0 false ].
Proof.
  split; [|reflexivity].
  intros txt i open_br word1 hyphen word2 close_br Hwin Hopen Hslash.
  pose proof (window_lookup _ i 0 [open_br; word1; hyphen; word2; close_br] _ Hwin eq_refl) as H0.
  pose proof (window_lookup _ i 2 [open_br; word1; hyphen; word2; close_br] _ Hwin eq_refl) as H2.
  rewrite Nat.add_0_r in H0.
  apply split_words_paren_odd in H0; [|done].
  apply split_words_slash_even in H2; [|done].
  rewrite Nat.odd_add in H2. rewrite H0 in H2. done.
Qed.

Lemma split_words_window_no_slash_witness :
  text (mkWord (s "-") false false 0 false) <> s "/".
Proof.
  apply (proj1 split_words_window_no_slash (s "(AP-BP)") 1
           (mkWord (s "(") false false 0 false)
           (mkWord (s "AP") false true 0 false)
           (mkWord (s "-") false false 0 false)
           (mkWord (s "BP") false false 0 true)
           (mkWord (s ")") false false 0 false)); reflexivity.
Defined.




(** ** Path enumeration *)

Section Enumeration.

Variable set_iter : forall A : Type, list A -> list A.
Hypothesis set_iter_perm : forall (A : Type) (l : list A), set_iter A l ≡ₚ l.

Lemma elem_of_set_iter {A : Type} (x : A) (l : list A) : x ∈ set_iter A l <-> x ∈ l.
Proof. by rewrite set_iter_perm. Qed.

Lemma elem_of_extend_paths (paths : list path) (choices : list nat) (q : path) :
  q ∈ extend_paths set_iter paths choices <->
  exists p choice,
    q = p ++ [choice] /\ p ∈ paths /\
    continuation_allowed (non_none_max p) choice = true /\
    (choice = None \/ exists c, choice = Some c /\ c ∈ choices).
Proof.
  unfold extend_paths. rewrite list_elem_of_In, in_flat_map. split.
  - intros (p & Hp & Hq). apply in_map_iff in Hq as (choice & <- & Hc).
    apply filter_In in Hc as [Hc Hallowed]. exists p, choice.
    apply list_elem_of_In in Hp. apply list_elem_of_In in Hc.
    apply (proj1 (elem_of_set_iter _ _)) in Hc.
    repeat split; try done.
    apply elem_of_app in Hc as [Hc | Hc].
    + apply list_elem_of_fmap in Hc as (c & -> & Hc). right. by exists c.
    + apply list_elem_of_singleton in Hc. by left.
  - intros (p & choice & -> & Hp & Hallowed & Hc). exists p.
    split; [by apply list_elem_of_In|].
    apply in_map_iff. exists choice. split; [done|].
    apply filter_In. split; [|done].
    apply list_elem_of_In, (proj2 (elem_of_set_iter _ _)), elem_of_app.
    destruct Hc as [-> | (c & -> & Hc)].
    + right. apply list_elem_of_here.
    + left. by apply list_elem_of_fmap_2.
Qed.

Lemma non_nones_snoc (p : path) (choice : option nat) :
  non_nones (p ++ [choice]) =
  non_nones p ++ match choice with Some c => [c] | None => [] end.
Proof. unfold non_nones. rewrite omap_app. by destruct choice. Qed.

Lemma foldl_max_le (v : nat) (vs : list nat) :
  v <= foldl Nat.max v vs /\ forall x, x ∈ vs -> x <= foldl Nat.max v vs.
Proof.
  revert v. induction vs as [|y vs IH]; intros v; simpl.
  - split; [lia|]. intros x Hx. by apply elem_of_nil in Hx.
  - destruct (IH (Nat.max v y)) as [H1 H2]. split; [lia|].
    intros x Hx. apply elem_of_cons in Hx as [-> | Hx]; [lia|by apply H2].
Qed.

Lemma non_none_max_bound (p : path) (m x : nat) :
  non_none_max p = Some m -> x ∈ non_nones p -> x <= m.
Proof.
  unfold non_none_max. destruct (non_nones p) as [|v vs]; [done|].
  intros [= <-] Hx. destruct (foldl_max_le v vs) as [H1 H2].
  apply elem_of_cons in Hx as [-> | Hx]; [done|by apply H2].
Qed.

Lemma non_none_max_None (p : path) : non_none_max p = None -> non_nones p = [].
Proof. unfold non_none_max. by destruct (non_nones p). Qed.

Lemma StronglySorted_snoc (l : list nat) (c : nat) :
  StronglySorted lt l -> (forall x, x ∈ l -> x < c) -> StronglySorted lt (l ++ [c]).
Proof.
  induction 1 as [|y l Hl IH Hy]; intros Hc; simpl.
  - repeat constructor.
  - constructor.
    + apply IH. intros x Hx. apply Hc. by apply list_elem_of_further.
    + apply Forall_app. split; [done|]. constructor; [|constructor].
      apply Hc. apply list_elem_of_here.
Qed.

Lemma extend_paths_increasing (paths : list path) (choices : list nat) :
  (forall p, p ∈ paths -> StronglySorted lt (non_nones p)) ->
  forall q, q ∈ extend_paths set_iter paths choices -> StronglySorted lt (non_nones q).
Proof.
  intros Hpaths q Hq.
  apply elem_of_extend_paths in Hq as (p & choice & -> & Hp & Hallowed & _).
  rewrite non_nones_snoc. destruct choice as [c|]; [|rewrite app_nil_r; by apply Hpaths].
  apply StronglySorted_snoc; [by apply Hpaths|].
  intros x Hx. unfold continuation_allowed in Hallowed.
  destruct (non_none_max p) as [m|] eqn:Hmax.
  - apply Nat.ltb_lt in Hallowed. pose proof (non_none_max_bound _ _ _ Hmax Hx). lia.
  - apply non_none_max_None in Hmax. rewrite Hmax in Hx. by apply elem_of_nil in Hx.
Qed.

Lemma foldl_extend_paths_increasing (others : list (list nat)) (paths : list path) :
  (forall p, p ∈ paths -> StronglySorted lt (non_nones p)) ->
  forall q, q ∈ foldl (extend_paths set_iter) paths others ->
            StronglySorted lt (non_nones q).
Proof.
  revert paths. induction others as [|choices others IH]; intros paths Hpaths; [done|].
  simpl. apply IH. by apply extend_paths_increasing.
Qed.

Lemma enumerate_paths_increasing (words : list WordMetadata)
    (first : list nat) (others : list (list nat)) (q : path) :
  q ∈ enumerate_paths set_iter words first others -> StronglySorted lt (non_nones q).
Proof.
  apply foldl_extend_paths_increasing. intros p Hp.
  apply list_elem_of_fmap in Hp as (c & -> & _). repeat constructor.
Qed.

End Enumeration.

(** C2, as the claim states it, fails: a continuation whose index equals
    the running maximum is dropped. *)
Lemma equal_index_not_retained :
  ~ (forall (paths : list path) (choices : list nat) (p : path) (m c : nat),
       p ∈ paths -> c ∈ choices -> non_none_max p = Some m -> m <= c ->
       p ++ [Some c] ∈ extend_paths insertion_order paths choices).
Proof.
  intros H.
  specialize (H [[Some 3]] [3] [Some 3] 3 3).
  assert ([Some 3; Some 3] ∈ [[Some 3; None]]) as Hin.
  { apply H; [apply list_elem_of_here|apply list_elem_of_here|done|lia]. }
  apply list_elem_of_singleton in Hin. discriminate.
Qed.

(** C2 (amended). Whatever the order in which the sets are iterated, a round
    of the enumeration continues a path with [None] and with every choice
    strictly greater than the running maximum of its indices, and with
    nothing else; so the indices of an enumerated path strictly increase,
    and no two letters of it share a token. *)
Theorem enumeration_strictly_increasing
    (set_iter : forall A : Type, list A -> list A) :
  (forall (A : Type) (l : list A), set_iter A l ≡ₚ l) ->
  (forall (paths : list path) (choices : list nat) (p : path) (choice : option nat),
     p ++ [choice] ∈ extend_paths set_iter paths choices <->
     p ∈ paths /\
     (choice = None \/
      exists c, choice = Some c /\ c ∈ choices /\
                forall m, non_none_max p = Some m -> m < c)) /\
  (forall (words : list WordMetadata) (first : list nat) (others : list (list nat))
          (q : path),
     q ∈ enumerate_paths set_iter words first others ->
     StronglySorted lt (non_nones q)).
Proof.
  intros Hperm. split.
  - intros paths choices p choice. rewrite (elem_of_extend_paths _ Hperm). split.
    + intros (p' & choice' & Heq & Hp & Hallowed & Hc).
      apply app_inj_tail in Heq as [<- <-]. split; [done|].
      destruct Hc as [-> | (c & -> & Hc)]; [by left|]. right. exists c.
      repeat split; try done. intros m Hm. rewrite Hm in Hallowed.
      by apply Nat.ltb_lt in Hallowed.
    + intros (Hp & Hc). exists p, choice. repeat split; try done.
      * destruct Hc as [-> | (c & -> & _ & Hc)]; unfold continuation_allowed.
        -- by destruct (non_none_max p).
        -- destruct (non_none_max p) as [m|]; [|done]. by apply Nat.ltb_lt, Hc.
      * destruct Hc as [-> | (c & -> & Hc & _)]; [by left|]. right. by exists c.
  - intros words first others q. by apply enumerate_paths_increasing.
Qed.

Lemma enumeration_strictly_increasing_witness :
  [Some 0; Some 2] ∈ extend_paths insertion_order [[Some 0]] [2] /\
  StronglySorted lt (non_nones [Some 0; Some 2]).
Proof.
  assert (forall (A : Type) (l : list A), insertion_order A l ≡ₚ l) as Hperm by done.
  destruct (enumeration_strictly_increasing insertion_order Hperm) as [Hext Henum].
  split.
  - apply (Hext [[Some 0]] [2] [Some 0] (Some 2)). split; [apply list_elem_of_here|].
    right. exists 2. repeat split; [apply list_elem_of_here|].
    intros m [= <-]. lia.
  - apply (Henum [mkWord (s "a") false true 0 false] [0] [[2]]).
    apply list_elem_of_here.
Defined.

(** ** Path filter *)

Lemma countb_split {A : Type} (p q r : A -> bool) (l : list A) :
  (forall x, p x = true -> xorb (q x) (r x) = true) ->
  (forall x, p x = false -> q x = false /\ r x = false) ->
  countb p l = countb q l + countb r l.
Proof.
  intros Hp Hn. unfold countb. induction l as [|x l IH]; [done|]. simpl.
  destruct (p x) eqn:Hx.
  - specialize (Hp _ Hx). destruct (q x), (r x); simpl in *; try done; lia.
  - destruct (Hn _ Hx) as [-> ->]. done.
Qed.

(** C3, as the claim states it, fails: in [alpha of the to for beta (AB)]
    the path from [alpha] to [beta] spans two real words and four stop
    words; the filter drops it, a count of real words would keep it. *)
Lemma filter_counts_stop_words :
  ~ (forall (words : list WordMetadata) (max_intra_word_letters : nat) (p : path),
       path_kept words max_intra_word_letters p
       = path_kept_spec words max_intra_word_letters p).
Proof.
  intros H.
  specialize (H (merge_complex_acronyms (split_words (s "alpha of the to for beta (AB)")))
                2 [Some 0; Some 10]).
  vm_compute in H. discriminate.
Qed.

(** The text of that example gets no definition. *)
Example mark_acronyms_alpha_beta :
  mark_acronyms insertion_order (s "alpha of the to for beta (AB)") 2 = ∅.
Proof. by_running. Qed.

(** C3 (amended). A path whose first and last matched indices are
    [path_start] and [path_end] is dropped exactly when it misses more than
    [max_intra_word_letters] letters, or the span between the two is not
    bracket-balanced, or the span holds more word-like tokens than matched
    letters plus [max_intra_word_letters]; the word-like tokens of the span
    are its real words together with its stop words. *)
Theorem filter_counts_word_like (words : list WordMetadata)
    (max_intra_word_letters : nat) (p : path) (path_start path_end : nat) :
  non_none_min p = Some path_start ->
  non_none_max p = Some path_end ->
  (path_kept words max_intra_word_letters p = false <->
     max_intra_word_letters < count_nones p \/
     bracket_match (join (slice path_start (path_end + 1) words)) = false \/
     length p - count_nones p + max_intra_word_letters
       < countb word_like (slice path_start (path_end + 1) words)) /\
  countb word_like (slice path_start (path_end + 1) words)
  = total_real_words words path_start path_end
    + countb stop_word (slice path_start (path_end + 1) words).
Proof.
  intros Hmin Hmax. split.
  - unfold path_kept, total_words. rewrite Hmin, Hmax.
    destruct (max_intra_word_letters <? count_nones p) eqn:Hmiss.
    + apply Nat.ltb_lt in Hmiss. split; [by left|done].
    + apply Nat.ltb_ge in Hmiss.
      destruct (bracket_match _) eqn:Hbr; simpl.
      * rewrite Nat.leb_gt. split; [by right; right|].
        intros [?|[?|?]]; [lia|done|done].
      * split; [by right; left|done].
  - unfold total_real_words. apply countb_split; unfold real_word, stop_word.
    + intros x ->. simpl. by destruct (in_stop_words (text x)).
    + by intros x ->.
Qed.

Lemma filter_counts_word_like_witness :
  let words := merge_complex_acronyms (split_words (s "alpha of the to for beta (AB)")) in
  path_kept words 2 [Some 0; Some 10] = false /\
  countb word_like (slice 0 (10 + 1) words)
  = total_real_words words 0 10 + countb stop_word (slice 0 (10 + 1) words).
Proof.
  intros words.
  pose proof (filter_counts_word_like words 2 [Some 0; Some 10] 0 10 eq_refl eq_refl)
    as [Hkept Hcount].
  split; [|exact Hcount].
  apply Hkept. right. right. vm_compute. lia.
Defined.

(** ** Sentence isolation *)

Section Sentences.

Variable set_iter : forall A : Type, list A -> list A.
Hypothesis set_iter_perm : forall (A : Type) (l : list A), set_iter A l ≡ₚ l.

Variable words : list WordMetadata.
Variable max_intra_word_letters : nat.

Lemma add_matches_Forall (P : nat -> Prop) words_pos letters matches :
  P words_pos -> Forall (Forall P) matches ->
  Forall (Forall P) (add_matches words words_pos letters matches).
Proof.
  intros Hpos. revert matches.
  induction letters as [|letter letters IH]; intros matches Hm; [by destruct matches|].
  destruct matches as [|found others]; [done|]. simpl.
  apply Forall_cons in Hm as [Hfound Hothers]. constructor; [|by apply IH].
  destruct (default false _); [by constructor|done].
Qed.

Lemma collect_matches_in_sentence acronym_pos letters k matches :
  k <= acronym_pos - 1 ->
  (forall j, k <= j < acronym_pos - 1 ->
             sentence_at words j = sentence_at words acronym_pos) ->
  Forall (Forall (in_sentence words acronym_pos)) matches ->
  Forall (Forall (in_sentence words acronym_pos))
    (collect_matches words max_intra_word_letters acronym_pos letters k matches).
Proof.
  revert matches. induction k as [|words_pos IH]; intros matches Hk Hwalked Hm; [done|].
  simpl. destruct (bool_decide _) eqn:Hsame; simpl; [|done].
  apply bool_decide_eq_true in Hsame.
  destruct (_ <? _); [done|].
  assert (forall j, words_pos <= j < acronym_pos - 1 ->
                    sentence_at words j = sentence_at words acronym_pos) as Hwalked'.
  { intros j Hj. destruct (decide (j = words_pos)) as [->|]; [done|].
    apply Hwalked. lia. }
  apply IH; [lia|done|].
  apply add_matches_Forall; [|done]. split; [lia|done].
Qed.

Lemma letter_matches_in_sentence acronym_pos letters :
  Forall (Forall (in_sentence words acronym_pos))
    (letter_matches words max_intra_word_letters acronym_pos letters).
Proof.
  apply collect_matches_in_sentence; [done|intros j Hj; lia|].
  apply Forall_fmap, Forall_forall. intros x _. constructor.
Qed.

Lemma path_forall_snoc (P : nat -> Prop) (p : path) (choice : option nat) :
  path_forall P p -> (forall c, choice = Some c -> P c) ->
  path_forall P (p ++ [choice]).
Proof.
  intros Hp Hc c Hin. apply elem_of_app in Hin as [Hin|Hin]; [by apply Hp|].
  apply list_elem_of_singleton in Hin. by apply Hc.
Qed.

Lemma foldl_extend_paths_forall (P : nat -> Prop) (others : list (list nat))
    (paths : list path) :
  Forall (Forall P) others ->
  (forall p, p ∈ paths -> path_forall P p) ->
  forall q, q ∈ foldl (extend_paths set_iter) paths others -> path_forall P q.
Proof.
  revert paths. induction others as [|choices others IH]; intros paths Ho Hpaths; [done|].
  apply Forall_cons in Ho as [Hchoices Ho]. simpl. apply IH; [done|].
  intros q Hq.
  apply (elem_of_extend_paths _ set_iter_perm) in Hq as (p & choice & -> & Hp & _ & Hc).
  apply path_forall_snoc; [by apply Hpaths|].
  intros c ->. destruct Hc as [|(c' & [= <-] & Hc)]; [done|].
  by apply (proj1 (Forall_forall _ _) Hchoices).
Qed.

Lemma enumerate_paths_forall (P : nat -> Prop) first others q :
  Forall P first -> Forall (Forall P) others ->
  q ∈ enumerate_paths set_iter words first others -> path_forall P q.
Proof.
  intros Hfirst Hothers. apply foldl_extend_paths_forall; [done|].
  intros p Hp. apply list_elem_of_fmap in Hp as (c & -> & Hc).
  apply list_elem_of_In, filter_In in Hc as [Hc _].
  apply list_elem_of_In, (proj1 (elem_of_set_iter _ set_iter_perm _ _)) in Hc.
  intros c' Hc'. apply list_elem_of_singleton in Hc' as [= ->].
  by apply (proj1 (Forall_forall _ _) Hfirst).
Qed.

Lemma min_by_key_elem (best : path) (others : list path) :
  min_by_key best others ∈ best :: others.
Proof.
  revert best. induction others as [|p others IH]; intros best.
  - apply list_elem_of_here.
  - cbn [min_by_key].
    specialize (IH (if key_ltb (path_key p) (path_key best) then p else best)).
    apply elem_of_cons in IH as [-> | IH].
    + destruct (key_ltb _ _); [apply list_elem_of_further|]; apply list_elem_of_here.
    + by do 2 apply list_elem_of_further.
Qed.

Lemma interpolate_forall (P : nat -> Prop) i todo best_path :
  path_forall P best_path -> path_forall P (interpolate words i todo best_path).
Proof.
  revert i best_path. induction todo as [|[m letter] todo IH]; intros i best_path Hp; [done|].
  simpl. destruct m as [c|]; [by apply IH|].
  destruct (best_path !! (i - 1)) as [[prev_choice|]|] eqn:Hprev; [|done|done].
  destruct (in_stop_words _); [by apply IH|].
  destruct (_ && _); [|by apply IH].
  apply IH. intros c Hc.
  apply list_elem_of_lookup in Hc as (j & Hj).
  apply list_lookup_insert_Some in Hj as [(-> & [= <-] & _) | (_ & Hj)].
  - apply Hp. by apply list_elem_of_lookup_2 in Hprev.
  - apply Hp. by apply list_elem_of_lookup_2 in Hj.
Qed.

Lemma best_path_for_in_sentence acronym_pos letters best_path :
  best_path_for set_iter words max_intra_word_letters acronym_pos letters = Some best_path ->
  path_forall (in_sentence words acronym_pos) best_path.
Proof.
  unfold best_path_for.
  pose proof (letter_matches_in_sentence acronym_pos letters) as Hm.
  destruct (letter_matches _ _ _ _) as [|first others]; [done|].
  apply Forall_cons in Hm as [Hfirst Hothers].
  destruct first as [|c first]; [done|].
  destruct (filter_paths _ _ _) as [|p ps] eqn:Hfiltered; [done|].
  intros [= <-]. apply interpolate_forall.
  pose proof (min_by_key_elem p ps) as Hbest. rewrite <- Hfiltered in Hbest.
  apply list_elem_of_In, filter_In in Hbest as [Hbest _].
  apply list_elem_of_In in Hbest.
  by apply (enumerate_paths_forall _ _ _ _ Hfirst Hothers Hbest).
Qed.

Lemma foldl_min_elem (v : nat) (vs : list nat) : foldl Nat.min v vs ∈ v :: vs.
Proof.
  revert v. induction vs as [|y vs IH]; intros v; simpl; [apply list_elem_of_here|].
  specialize (IH (Nat.min v y)). apply elem_of_cons in IH as [-> | IH].
  - destruct (Nat.min_spec v y) as [[_ ->] | [_ ->]];
      [|apply list_elem_of_further]; apply list_elem_of_here.
  - by do 2 apply list_elem_of_further.
Qed.

Lemma non_none_min_elem (p : path) (c : nat) : non_none_min p = Some c -> Some c ∈ p.
Proof.
  unfold non_none_min. destruct (non_nones p) as [|v vs] eqn:Hp; [done|].
  intros [= <-]. pose proof (foldl_min_elem v vs) as Hin. rewrite <- Hp in Hin.
  apply list_elem_of_omap in Hin as (x & Hx & Hid). simpl in Hid. by subst.
Qed.

Lemma definition_span_in_sentence acronym_pos letters start stop :
  definition_span set_iter words max_intra_word_letters acronym_pos letters
    = Some (start, stop) ->
  stop = acronym_pos - 1 /\ in_sentence words acronym_pos start.
Proof.
  unfold definition_span.
  destruct (best_path_for _ _ _ _ _) as [best_path|] eqn:Hbest; [|done].
  destruct (count_nones best_path =? 0); [|done].
  destruct (non_none_min best_path) as [c|] eqn:Hmin; [|done].
  intros [= <- <-]. split; [done|].
  apply (best_path_for_in_sentence _ _ _ Hbest). by apply non_none_min_elem.
Qed.

Lemma mark_step_emitted (acronyms : gmap str (gset str)) (item : nat * WordMetadata) :
  words !! item.1 = Some item.2 ->
  (forall a defns defn, acronyms !! a = Some defns -> defn ∈ defns ->
     exists acronym_pos acronym start stop,
       emitted_at set_iter words max_intra_word_letters a defn acronym_pos acronym start stop) ->
  forall a defns defn,
    mark_step set_iter words max_intra_word_letters acronyms item !! a = Some defns ->
    defn ∈ defns ->
    exists acronym_pos acronym start stop,
      emitted_at set_iter words max_intra_word_letters a defn acronym_pos acronym start stop.
Proof.
  destruct item as [acronym_pos acronym]. simpl. intros Hitem Hinv a defns defn.
  destruct (acronym_like acronym) eqn:Hlike; [|by apply Hinv].
  unfold find_definition.
  destruct (definition_span _ _ _ _ _) as [[start stop]|] eqn:Hspan; simpl; [|by apply Hinv].
  unfold add_definition. intros Hlookup Hdefn.
  apply lookup_insert_Some in Hlookup as [[<- <-] | [_ Hlookup]]; [|by eapply Hinv].
  apply elem_of_union in Hdefn as [Hdefn | Hdefn].
  - destruct (acronyms !! text acronym) as [old|] eqn:Hold; simpl in Hdefn.
    + by eapply Hinv.
    + by apply elem_of_empty in Hdefn.
  - apply elem_of_singleton in Hdefn as ->.
    by exists acronym_pos, acronym, start, stop.
Qed.

Lemma mark_all_emitted (a : str) (defns : gset str) (defn : str) :
  mark_all set_iter words max_intra_word_letters !! a = Some defns ->
  defn ∈ defns ->
  exists acronym_pos acronym start stop,
    emitted_at set_iter words max_intra_word_letters a defn acronym_pos acronym start stop.
Proof.
  unfold mark_all.
  assert (forall item, item ∈ imap (fun pos w => (pos, w)) words ->
                       words !! item.1 = Some item.2) as Hitems.
  { intros item Hitem. by apply elem_of_lookup_imap_1 in Hitem as (i & w & -> & Hw). }
  revert Hitems a defns defn.
  generalize (imap (fun pos w => (pos, w)) words).
  intros items. induction items as [|item items IH] using rev_ind; intros Hitems.
  - intros a defns defn Hlookup. simpl in Hlookup. by rewrite lookup_empty in Hlookup.
  - rewrite foldl_snoc. apply mark_step_emitted.
    + apply Hitems, elem_of_app. right. apply list_elem_of_here.
    + apply IH. intros x Hx. apply Hitems, elem_of_app. by left.
Qed.

End Sentences.

(** C5. Whatever the order in which the sets are iterated: for every token
    of the text and every span [start .. stop) that the engine emits for
    it ([definition_span]), the span ends right before the bracket of that
    token, it is not empty, and every token of it carries the sentence
    number of that token; and every definition in the result of
    [mark_acronyms] is the stripped text of the span emitted for an
    acronym-like token with that text. *)
Theorem sentence_isolation (set_iter : forall A : Type, list A -> list A)
    (txt : str) (max_intra_word_letters : nat) :
  (forall (A : Type) (l : list A), set_iter A l ≡ₚ l) ->
  let words := merge_complex_acronyms (split_words txt) in
  (forall (acronym_pos : nat) (acronym : WordMetadata) (start stop : nat),
     words !! acronym_pos = Some acronym ->
     definition_span set_iter words max_intra_word_letters acronym_pos (text acronym)
       = Some (start, stop) ->
     stop = acronym_pos - 1 /\
     start < stop /\
     forall (j : nat) (tok : WordMetadata),
       start <= j < stop -> words !! j = Some tok ->
       sentence_number tok = sentence_number acronym) /\
  (forall (a : str) (defns : gset str) (defn : str),
     mark_acronyms set_iter txt max_intra_word_letters !! a = Some defns ->
     defn ∈ defns ->
     exists (acronym_pos : nat) (acronym : WordMetadata) (start stop : nat),
       words !! acronym_pos = Some acronym /\
       acronym_like acronym = true /\
       text acronym = a /\
       definition_span set_iter words max_intra_word_letters acronym_pos a
         = Some (start, stop) /\
       defn = strip (join (slice start stop words))).
Proof.
  intros Hperm words. split.
  - intros acronym_pos acronym start stop Hpos Hspan.
    apply (definition_span_in_sentence _ Hperm) in Hspan as [-> [Hlt Hsent]].
    split; [done|]. split; [done|]. intros j tok Hj Htok.
    specialize (Hsent j Hj). unfold sentence_at in Hsent.
    rewrite Htok, Hpos in Hsent. simpl in Hsent. by injection Hsent.
  - intros a defns defn Hlookup Hdefn.
    destruct (mark_all_emitted _ _ _ _ _ _ Hlookup Hdefn)
      as (acronym_pos & acronym & start & stop & Hemit).
    by exists acronym_pos, acronym, start, stop.
Qed.

Lemma sentence_isolation_witness :
  let words := merge_complex_acronyms
                 (split_words (s "growth. epidermal growth factor receptor (EGFR)")) in
  13 = 14 - 1 /\
  4 < 13 /\
  forall (j : nat) (tok : WordMetadata),
    4 <= j < 13 -> words !! j = Some tok ->
    sentence_number tok = sentence_number (mkWord (s "EGFR") true true 1 false).
Proof.
  intros words.
  assert (forall (A : Type) (l : list A), insertion_order A l ≡ₚ l) as Hperm by done.
  destruct (sentence_isolation insertion_order
              (s "growth. epidermal growth factor receptor (EGFR)") 2 Hperm)
    as [Hspan _].
  apply (Hspan 14 (mkWord (s "EGFR") true true 1 false) 4 13); reflexivity.
Defined.

(** The words before the period match the letters, and are not used. *)
Example mark_acronyms_across_sentences :
  mark_acronyms insertion_order (s "epidermal growth factor receptor. Then (EGFR)") 2 = ∅.
Proof. by_running. Qed.


(** ** Independence of the order of iteration *)

Lemma filter_Permutation {A : Type} (f : A -> bool) (l l' : list A) :
  l ≡ₚ l' -> List.filter f l ≡ₚ List.filter f l'.
Proof.
  induction 1 as [|x l l' _ IH|x y l|l l' l'' _ IH1 _ IH2]; simpl.
  - done.
  - destruct (f x); [by constructor|done].
  - destruct (f x), (f y); try done. apply perm_swap.
  - by etrans.
Qed.

Lemma flat_map_pointwise {A B : Type} (f g : A -> list B) (l : list A) :
  (forall x, f x ≡ₚ g x) -> flat_map f l ≡ₚ flat_map g l.
Proof.
  intros Hfg. induction l as [|x l IH]; simpl; [done|].
  by apply Permutation_app.
Qed.

Lemma key_ltb_asym (k1 k2 : nat * Z * Z) :
  key_ltb k1 k2 = true -> key_ltb k2 k1 = false.
Proof.
  destruct k1 as [[a1 b1] c1], k2 as [[a2 b2] c2]. unfold key_ltb.
  rewrite !orb_true_iff, !andb_true_iff, !orb_true_iff, !andb_true_iff.
  rewrite !Nat.ltb_lt, !Nat.eqb_eq, !Z.ltb_lt, !Z.eqb_eq. intros H.
  apply not_true_is_false.
  rewrite !orb_true_iff, !andb_true_iff, !orb_true_iff, !andb_true_iff.
  rewrite !Nat.ltb_lt, !Nat.eqb_eq, !Z.ltb_lt, !Z.eqb_eq. lia.
Qed.

Lemma key_ltb_between (k1 k2 k3 : nat * Z * Z) :
  key_ltb k1 k3 = true -> key_ltb k1 k2 = true \/ key_ltb k2 k3 = true.
Proof.
  destruct k1 as [[a1 b1] c1], k2 as [[a2 b2] c2], k3 as [[a3 b3] c3]. unfold key_ltb.
  rewrite !orb_true_iff, !andb_true_iff, !orb_true_iff, !andb_true_iff.
  rewrite !Nat.ltb_lt, !Nat.eqb_eq, !Z.ltb_lt, !Z.eqb_eq. lia.
Qed.

(** No path has a key below that of the path [min] returns. *)
Lemma min_by_key_least (others : list path) (best q : path) :
  q ∈ best :: others ->
  key_ltb (path_key q) (path_key (min_by_key best others)) = false.
Proof.
  revert best q. induction others as [|p others IH]; intros best q Hq.
  - apply list_elem_of_singleton in Hq as ->. cbn [min_by_key].
    destruct (key_ltb (path_key best) (path_key best)) eqn:H; [|done].
    pose proof (key_ltb_asym _ _ H) as H'. congruence.
  - cbn [min_by_key].
    set (best' := if key_ltb (path_key p) (path_key best) then p else best).
    assert (key_ltb (path_key best') (path_key (min_by_key best' others)) = false)
      as Hbest' by apply IH, list_elem_of_here.
    apply elem_of_cons in Hq as [-> | Hq]; [|apply elem_of_cons in Hq as [-> | Hq]].
    + subst best'. destruct (key_ltb (path_key p) (path_key best)) eqn:Hlt; [|done].
      apply not_true_is_false. intros H.
      apply (key_ltb_between _ (path_key p)) in H as [H | H]; [|congruence].
      pose proof (key_ltb_asym _ _ Hlt) as H'. congruence.
    + subst best'. destruct (key_ltb (path_key p) (path_key best)) eqn:Hlt; [done|].
      apply not_true_is_false. intros H.
      apply (key_ltb_between _ (path_key best)) in H as [H | H]; congruence.
    + apply IH. by apply list_elem_of_further.
Qed.

Lemma min_by_key_unique (p p' : path) (ps ps' : list path) :
  p' :: ps' ≡ₚ p :: ps ->
  least_key_unique (p :: ps) = true ->
  min_by_key p' ps' = min_by_key p ps.
Proof.
  intros Hperm Hunique. unfold least_key_unique in Hunique.
  pose proof (proj1 (forallb_forall _ _) Hunique (min_by_key p' ps')) as Hcheck.
  pose proof (min_by_key_elem p' ps') as Hin. rewrite Hperm in Hin.
  apply list_elem_of_In in Hin. specialize (Hcheck Hin).
  apply orb_true_iff in Hcheck as [Heq | Hlt]; [by apply bool_decide_eq_true in Heq|].
  pose proof (min_by_key_elem p ps) as Hbest. rewrite <- Hperm in Hbest.
  by rewrite (min_by_key_least _ _ _ Hbest) in Hlt.
Qed.

Section OrderFree.

Variable set_iter : forall A : Type, list A -> list A.
Hypothesis set_iter_perm : forall (A : Type) (l : list A), set_iter A l ≡ₚ l.

Variable words : list WordMetadata.
Variable max_intra_word_letters : nat.

Lemma extend_paths_Permutation (paths paths' : list path) (choices : list nat) :
  paths ≡ₚ paths' ->
  extend_paths set_iter paths choices ≡ₚ extend_paths insertion_order paths' choices.
Proof.
  intros Hpaths. unfold extend_paths. etrans.
  - apply flat_map_pointwise. intros p.
    apply Permutation_map, filter_Permutation, set_iter_perm.
  - by apply Permutation_flat_map.
Qed.

Lemma enumerate_paths_Permutation (first : list nat) (others : list (list nat)) :
  enumerate_paths set_iter words first others
  ≡ₚ enumerate_paths insertion_order words first others.
Proof.
  unfold enumerate_paths.
  assert (start_paths set_iter words first ≡ₚ start_paths insertion_order words first)
    as Hstart by apply Permutation_map, filter_Permutation, set_iter_perm.
  revert Hstart. generalize (start_paths set_iter words first).
  generalize (start_paths insertion_order words first).
  induction others as [|choices others IH]; intros paths' paths Hpaths; [done|].
  simpl. by apply IH, extend_paths_Permutation.
Qed.

Lemma best_path_for_order_free (acronym_pos : nat) (letters : str) :
  order_free_at words max_intra_word_letters acronym_pos letters = true ->
  best_path_for set_iter words max_intra_word_letters acronym_pos letters
  = best_path_for insertion_order words max_intra_word_letters acronym_pos letters.
Proof.
  unfold order_free_at, best_path_for.
  destruct (letter_matches _ _ _ _) as [|first others]; [done|].
  destruct first as [|c first]; [done|]. intros Hunique.
  pose proof (filter_Permutation (path_kept words max_intra_word_letters) _ _
                (enumerate_paths_Permutation (c :: first) others)) as Hperm.
  unfold filter_paths in *.
  destruct (List.filter _ (enumerate_paths insertion_order _ _ _)) as [|p ps].
  - apply Permutation_nil_r in Hperm. by rewrite Hperm.
  - destruct (List.filter _ (enumerate_paths set_iter _ _ _)) as [|p' ps'].
    + by apply Permutation_nil_cons in Hperm.
    + by rewrite (min_by_key_unique _ _ _ _ Hperm Hunique).
Qed.

Lemma foldl_ext_in {A B : Type} (f g : B -> A -> B) (l : list A) (b : B) :
  (forall acc x, x ∈ l -> f acc x = g acc x) -> foldl f b l = foldl g b l.
Proof.
  revert b. induction l as [|x l IH]; intros b Hfg; [done|]. simpl.
  rewrite Hfg by apply list_elem_of_here. apply IH.
  intros acc y Hy. by apply Hfg, list_elem_of_further.
Qed.

Lemma mark_all_order_free :
  order_free words max_intra_word_letters = true ->
  mark_all set_iter words max_intra_word_letters
  = mark_all insertion_order words max_intra_word_letters.
Proof.
  intros Hfree. unfold mark_all. apply foldl_ext_in.
  intros acronyms [acronym_pos acronym] Hitem.
  apply list_elem_of_In in Hitem.
  pose proof (proj1 (forallb_forall _ _) Hfree _ Hitem) as Hat. simpl in *.
  destruct (acronym_like acronym); [|done]. simpl in Hat.
  unfold find_definition, definition_span.
  by rewrite (best_path_for_order_free _ _ Hat).
Qed.

End OrderFree.

(** The result of [mark_acronyms] on a text where every acronym-like token
    has one path of least key. *)
Lemma mark_acronyms_order_free (set_iter : forall A : Type, list A -> list A)
    (txt : str) (max_intra_word_letters : nat) :
  (forall (A : Type) (l : list A), set_iter A l ≡ₚ l) ->
  order_free (merge_complex_acronyms (split_words txt)) max_intra_word_letters = true ->
  mark_acronyms set_iter txt max_intra_word_letters
  = mark_acronyms insertion_order txt max_intra_word_letters.
Proof. intros Hperm Hfree. by apply mark_all_order_free. Qed.

(** C1. For [epidermal growth factor receptor (EGFR) are found] and the
    default [max_intra_word_letters = 2], [mark_acronyms] returns the map
    with the one key [EGFR] and the one definition
    [epidermal growth factor receptor], whatever the order in which the
    sets are iterated. *)
Theorem mark_acronyms_EGFR (set_iter : forall A : Type, list A -> list A) :
  (forall (A : Type) (l : list A), set_iter A l ≡ₚ l) ->
  mark_acronyms set_iter (s "epidermal growth factor receptor (EGFR) are found") 2
  = {[ s "EGFR" := {[ s "epidermal growth factor receptor" ]} ]}.
Proof.
  intros Hperm. rewrite (mark_acronyms_order_free _ _ _ Hperm); by_running.
Qed.

Lemma mark_acronyms_EGFR_witness :
  mark_acronyms reverse_order (s "epidermal growth factor receptor (EGFR) are found") 2
  = {[ s "EGFR" := {[ s "epidermal growth factor receptor" ]} ]}.
Proof.
  apply (mark_acronyms_EGFR reverse_order).
  intros A l. symmetry. apply Permutation_rev.
Defined.

(** C4. For [poly (ADP-ribose) polymerase (PARP) inhibitors] and the
    default [max_intra_word_letters = 2], [mark_acronyms] returns the map
    with the one key [PARP] and the one definition
    [poly (ADP-ribose) polymerase], whatever the order in which the sets
    are iterated; the span of that definition, from [poly] to [polymerase],
    holds the nested [(ADP-ribose)] and passes the bracket test of the
    filter. *)
Theorem mark_acronyms_PARP (set_iter : forall A : Type, list A -> list A) :
  (forall (A : Type) (l : list A), set_iter A l ≡ₚ l) ->
  let txt := s "poly (ADP-ribose) polymerase (PARP) inhibitors" in
  let words := merge_complex_acronyms (split_words txt) in
  mark_acronyms set_iter txt 2 = {[ s "PARP" := {[ s "poly (ADP-ribose) polymerase" ]} ]} /\
  best_path_for set_iter words 2 14 (s "PARP") = Some [Some 0; Some 4; Some 6; Some 10] /\
  join (slice 0 (10 + 1) words) = s "poly (ADP-ribose) polymerase" /\
  bracket_match (join (slice 0 (10 + 1) words)) = true /\
  path_kept words 2 [Some 0; Some 4; Some 6; Some 10] = true.
Proof.
  intros Hperm txt words. split; [|split; [|split; [|split]]].
  - rewrite (mark_acronyms_order_free _ _ _ Hperm); by_running.
  - rewrite (best_path_for_order_free _ Hperm); by_running.
  - by_running.
  - by_running.
  - by_running.
Qed.

Lemma mark_acronyms_PARP_witness :
  mark_acronyms reverse_order (s "poly (ADP-ribose) polymerase (PARP) inhibitors") 2
  = {[ s "PARP" := {[ s "poly (ADP-ribose) polymerase" ]} ]}.
Proof.
  apply (mark_acronyms_PARP reverse_order).
  intros A l. symmetry. apply Permutation_rev.
Defined.

(** Where two paths share the least key the order decides: the definition
    of [AciCC] is found under one order and not under the other. *)
Example mark_acronyms_AciCC_reverse :
  mark_acronyms reverse_order (s "most commonly acinic cell carcinoma (AciCC)") 2
  = {[ s "AciCC" := {[ s "acinic cell carcinoma" ]} ]}.
Proof. by_running. Qed.

Example mark_acronyms_AciCC_insertion :
  mark_acronyms insertion_order (s "most commonly acinic cell carcinoma (AciCC)") 2 = ∅.
Proof. by_running. Qed.


(** ** Inline substitution *)

Lemma starts_with_spec (needle hay : str) :
  starts_with needle hay = true <-> exists post, hay = needle ++ post.
Proof.
  revert hay. induction needle as [|a needle IH]; intros hay; simpl.
  - split; [by exists hay|done].
  - destruct hay as [|b hay].
    + split; [done|]. by intros (post & ?).
    + unfold Chars.eqb. rewrite andb_true_iff, Ascii.eqb_eq, IH. split.
      * intros [-> (post & ->)]. by exists post.
      * intros (post & [= -> ->]). split; [done|]. by exists post.
Qed.

(** [contains defn txt] is [defn in txt]: [defn] occurs in [txt] as it is. *)
Lemma contains_spec (needle hay : str) :
  contains needle hay = true <-> exists pre post, hay = pre ++ needle ++ post.
Proof.
  induction hay as [|c hay IH].
  - simpl. rewrite orb_false_r, starts_with_spec. split.
    + intros (post & ->). by exists [], post.
    + intros (pre & post & H). symmetry in H.
      apply app_eq_nil in H as [-> H]. apply app_eq_nil in H as [-> ->]. by exists [].
  - cbn [contains]. rewrite orb_true_iff, starts_with_spec, IH. split.
    + intros [(post & ->) | (pre & post & ->)]; [by exists [], post|by exists (c :: pre), post].
    + intros ([|c' pre] & post & H); [left; by exists post|].
      injection H as -> ->. right. by exists pre, post.
Qed.

(** C7. When the definition occurs in the text as it is, [sub_acronym]
    returns the text unchanged, whatever the acronym and whatever [re.sub]
    would do; so applying it again to its result gives the same result. *)
Theorem sub_acronym_idempotent (re_sub_first : str -> str -> str -> option str)
    (txt acronym defn : str) :
  contains defn txt = true ->
  sub_acronym re_sub_first txt acronym defn = Some txt /\
  (sub_acronym re_sub_first txt acronym defn
     ≫= fun txt' => sub_acronym re_sub_first txt' acronym defn)
  = sub_acronym re_sub_first txt acronym defn.
Proof.
  intros Hin. assert (sub_acronym re_sub_first txt acronym defn = Some txt) as Heq.
  { unfold sub_acronym. by rewrite Hin. }
  split; [done|]. rewrite Heq. simpl. exact Heq.
Qed.

Lemma sub_acronym_idempotent_witness :
  sub_acronym re_sub_word
    (s "Among 59 IMAs (invasive mucinous adenocarcinoma), we found IMAs")
    (s "IMA") (s "invasive mucinous adenocarcinoma")
  = Some (s "Among 59 IMAs (invasive mucinous adenocarcinoma), we found IMAs").
Proof.
  apply (sub_acronym_idempotent re_sub_word
           (s "Among 59 IMAs (invasive mucinous adenocarcinoma), we found IMAs")
           (s "IMA") (s "invasive mucinous adenocarcinoma")).
  reflexivity.
Defined.

(** The case of the test suite: the first whole-word occurrence, with its
    plural [s], is annotated; the second is left as it is. *)
Example sub_acronym_IMA :
  sub_acronym re_sub_word (s "Among 59 IMAs, we found IMAs")
    (s "IMA") (s "invasive mucinous adenocarcinoma")
  = Some (s "Among 59 IMAs (invasive mucinous adenocarcinoma), we found IMAs").
Proof. reflexivity. Qed.

(** ** Definition normalizer *)

(** C6 fails on the code: the entry of [SUBS] for [microarray] holds a
    space; it is put in after the split into words, and the words are
    joined as they are.  The key of [microarray] is [micro array], with a
    white space in it, and the key of [micro array] is [microarray]: the two
    spellings that the table means to unify get different keys. *)
Theorem normalize_defn_microarray :
  normalize_defn (s "microarray") = s "micro array" /\
  existsb Chars.is_space (normalize_defn (s "microarray")) = true /\
  normalize_defn (s "micro array") = s "microarray".
Proof. repeat split; reflexivity. Qed.


(** Apart from that entry the normalizer does what it is after: a
    definition without the word [microarray] gets a key free of
    separators. *)

Lemma replace_chars_marks (defn : str) (c : ascii) :
  c ∈ replace_chars (s ",") (replace_chars (s "-=/") defn) ->
  Chars.one_of (s "-=/,") c = false.
Proof.
  unfold replace_chars. rewrite <- list_fmap_compose.
  intros (c0 & -> & _)%list_elem_of_fmap. simpl.
  unfold Chars.one_of, Chars.eqb. simpl.
  destruct (Ascii.eqb c0 "-") eqn:H1; [done|].
  destruct (Ascii.eqb c0 "=") eqn:H2; [done|].
  destruct (Ascii.eqb c0 "/") eqn:H3; [done|]. simpl.
  destruct (Ascii.eqb c0 ",") eqn:H4; [done|]. simpl.
  by rewrite H1, H2, H3, H4.
Qed.

Lemma separator_free_app (u v : str) :
  separator_free (u ++ v) = separator_free u && separator_free v.
Proof. apply forallb_app. Qed.

Lemma split_scan_separator_free (cur rest : str) :
  separator_free cur = true ->
  (forall c, c ∈ rest -> Chars.one_of (s "-=/,") c = false) ->
  Forall (fun w => separator_free w = true) (split_scan cur rest).
Proof.
  revert cur. induction rest as [|c rest IH]; intros cur Hcur Hrest; simpl.
  - destruct cur; by repeat constructor.
  - assert (forall c', c' ∈ rest -> Chars.one_of (s "-=/,") c' = false) as Hrest'
      by (intros c' Hc'; by apply Hrest, list_elem_of_further).
    destruct (Chars.is_space c) eqn:Hsp.
    + destruct cur; [by apply IH|]. constructor; [done|by apply IH].
    + apply IH; [|done]. rewrite separator_free_app, Hcur. simpl.
      unfold is_separator_char. rewrite Hsp, (Hrest c) by apply list_elem_of_here. done.
Qed.

Lemma defn_words_separator_free (defn : str) :
  Forall (fun w => separator_free w = true) (defn_words defn).
Proof. apply split_scan_separator_free; [done|]. apply replace_chars_marks. Qed.

Lemma subs_get_separator_free (w : str) :
  w <> s "microarray" -> separator_free w = true ->
  separator_free (subs_get SUBS w) = true.
Proof.
  intros Hne Hw. unfold SUBS, subs_get, str_eqb.
  repeat (case_bool_decide; [first [done | congruence]|]). done.
Qed.

Lemma separator_free_take (n : nat) (w : str) :
  separator_free w = true -> separator_free (take n w) = true.
Proof.
  intros Hw. rewrite <- (take_drop n w), separator_free_app in Hw.
  by apply andb_true_iff in Hw as [? _].
Qed.

Lemma separator_free_drop (n : nat) (w : str) :
  separator_free w = true -> separator_free (drop n w) = true.
Proof.
  intros Hw. rewrite <- (take_drop n w), separator_free_app in Hw.
  by apply andb_true_iff in Hw as [_ ?].
Qed.

Lemma strip_ending_Some (ending word stem : str) :
  strip_ending ending word = Some stem ->
  stem = take (length word - length ending) word /\
  ending = drop (length word - length ending) word.
Proof.
  unfold strip_ending, str_eqb. destruct (_ && _) eqn:H; [|done].
  intros [= <-]. apply andb_true_iff in H as [H _].
  by apply bool_decide_eq_true in H.
Qed.

Lemma re_sub_at_end_separator_free (at_the_end : str -> option str) (word : str) :
  (forall w w', at_the_end w = Some w' -> separator_free w = true ->
                separator_free w' = true) ->
  separator_free word = true ->
  separator_free (re_sub_at_end at_the_end word) = true.
Proof.
  intros Hrule Hword. unfold re_sub_at_end.
  destruct (at_the_end word) as [word'|] eqn:Hhere; [by eapply Hrule|].
  destruct (strip_ending [Chars.LF] word) as [body|] eqn:Hbody; [|done].
  apply strip_ending_Some in Hbody as [_ Hlf].
  apply (separator_free_drop (length word - length [Chars.LF])) in Hword.
  by rewrite <- Hlf in Hword.
Qed.

Lemma sub_ending_separator_free (patt rep word : str) :
  separator_free rep = true -> separator_free word = true ->
  separator_free (sub_ending patt rep word) = true.
Proof.
  intros Hrep. apply re_sub_at_end_separator_free. intros w w' Hw' Hw.
  destruct (strip_ending patt w) as [stem|] eqn:Hstem; [|done].
  injection Hw' as <-. apply strip_ending_Some in Hstem as [-> _].
  rewrite separator_free_app, Hrep, andb_true_r. by apply separator_free_take.
Qed.

Lemma sub_plural_s_separator_free (word : str) :
  separator_free word = true -> separator_free (sub_plural_s word) = true.
Proof.
  apply re_sub_at_end_separator_free. intros w w' Hw' Hw.
  destruct (rev w) as [|last [|before stem]] eqn:Hrev; [done|done|].
  destruct (_ && _); [|done]. injection Hw' as <-.
  apply (f_equal (@rev ascii)) in Hrev. rewrite rev_involutive in Hrev. subst w.
  change (last :: before :: stem) with ([last] ++ (before :: stem)) in Hw.
  rewrite rev_app_distr, separator_free_app in Hw.
  by apply andb_true_iff in Hw as [? _].
Qed.

Lemma convert_to_singular_separator_free (word : str) :
  separator_free word = true -> separator_free (convert_to_singular word) = true.
Proof.
  intros Hword. unfold convert_to_singular, singular_rules. cbn [foldl].
  repeat first [ apply sub_ending_separator_free; [done|]
               | apply sub_plural_s_separator_free ].
  done.
Qed.

Lemma concat_separator_free (ws : list str) :
  Forall (fun w => separator_free w = true) ws -> separator_free (concat ws) = true.
Proof.
  induction 1 as [|w ws Hw _ IH]; [done|]. simpl.
  by rewrite separator_free_app, Hw, IH.
Qed.

(** X13. The key of a definition that does not hold the word [microarray]
    has no white space and none of [-], [=], [/] and [,] in it. *)
Lemma normalize_defn_separator_free (defn : str) :
  s "microarray" ∉ defn_words defn ->
  separator_free (normalize_defn defn) = true.
Proof.
  intros Hnot. unfold normalize_defn. fold (defn_words defn).
  apply concat_separator_free, Forall_forall. intros w Hw.
  apply list_elem_of_In, filter_In in Hw as [Hw _].
  apply in_map_iff in Hw as (w1 & <- & Hw1). apply in_map_iff in Hw1 as (w0 & <- & Hw0).
  apply list_elem_of_In in Hw0.
  apply convert_to_singular_separator_free, subs_get_separator_free.
  - intros ->. by apply Hnot.
  - by apply (proj1 (Forall_forall _ _) (defn_words_separator_free defn)).
Qed.

Lemma normalize_defn_separator_free_witness :
  separator_free (normalize_defn (s "Sturge-Weber syndrome, the")) = true.
Proof.
  apply (normalize_defn_separator_free (s "Sturge-Weber syndrome, the")). by_running.
Defined.

(** * Further properties of the code *)

(** ** Acronym-shape classifier *)

Lemma nullable_matches (r : regex) : nullable r = true <-> matches r [].
Proof.
  split.
  - induction r as [| |p|r1 IH1 r2 IH2|r1 IH1 r2 IH2|r IH]; simpl; intros H; try done.
    + constructor.
    + apply andb_true_iff in H as [H1 H2].
      apply (matches_seq r1 r2 [] []); auto.
    + apply orb_true_iff in H as [H | H]; [apply matches_alt_l|apply matches_alt_r]; auto.
    + constructor.
  - intros H. remember [] as w eqn:Hw.
    induction H as [|p c Hc|r1 r2 u v H1 IH1 H2 IH2|r1 r2 u H IH|r1 r2 u H IH|r|r u v H1 IH1 H2 IH2];
      simpl; try done.
    + apply app_eq_nil in Hw as [-> ->]. by rewrite IH1, IH2.
    + by rewrite IH.
    + rewrite IH by done. apply orb_true_r.
Qed.

Lemma matches_star_class (p : ascii -> bool) (w : str) :
  matches (Star (Class p)) w -> forallb p w = true.
Proof.
  intros H. remember (Star (Class p)) as r eqn:Hr.
  induction H as [|? ?|? ? ? ? ? ? ? ?|? ? ? ? ?|? ? ? ? ?|?|r u v H1 _ H2 IH2]; try done.
  injection Hr as ->. inversion H1; subst. simpl.
  match goal with H : p _ = true |- _ => rewrite H end. by apply IH2.
Qed.

Lemma deriv_matches (c : ascii) (r : regex) (w : str) :
  matches (deriv c r) w <-> matches r (c :: w).
Proof.
  split.
  - revert w. induction r as [| |p|r1 IH1 r2 IH2|r1 IH1 r2 IH2|r IH]; simpl; intros w H.
    + inversion H.
    + inversion H.
    + destruct (p c) eqn:Hc; inversion H; subst. by constructor.
    + destruct (nullable r1) eqn:Hn.
      * inversion H as [| |? ? ? ? ? ? | ? ? ? H' | ? ? ? H' | |]; subst.
        -- inversion H' as [| |? ? u v Hu Hv | | | |]; subst.
           apply (matches_seq _ _ (c :: u) v); auto.
        -- apply (matches_seq _ _ [] (c :: w)); [|auto].
           by apply nullable_matches.
      * inversion H as [| |? ? u v Hu Hv | | | |]; subst.
        apply (matches_seq _ _ (c :: u) v); auto.
    + inversion H; subst; [apply matches_alt_l|apply matches_alt_r]; auto.
    + inversion H as [| |? ? u v Hu Hv | | | |]; subst.
      apply (matches_star_cons _ (c :: u) v); auto.
  - intros H. remember (c :: w) as cw eqn:Hcw. revert w Hcw.
    induction H as [|p c' Hc|r1 r2 u v H1 IH1 H2 IH2|r1 r2 u H IH|r1 r2 u H IH|r|r u v H1 IH1 H2 IH2];
      intros w Hcw; simpl; try done.
    + injection Hcw as -> <-. rewrite Hc. constructor.
    + destruct u as [|c' u]; simpl in Hcw.
      * subst v. apply nullable_matches in H1. rewrite H1.
        apply matches_alt_r. by apply IH2.
      * injection Hcw as -> <-.
        destruct (nullable r1); [apply matches_alt_l|]; constructor; auto.
    + apply matches_alt_l. by apply IH.
    + apply matches_alt_r. by apply IH.
    + destruct u as [|c' u]; simpl in Hcw.
      * subst v. by apply IH2.
      * injection Hcw as -> <-. constructor; auto.
Qed.

(** The matcher by derivatives decides the language of the expression. *)
Lemma full_match_matches (r : regex) (w : str) :
  full_match r w = true <-> matches r w.
Proof.
  revert r. induction w as [|c w IH]; intros r; simpl.
  - apply nullable_matches.
  - by rewrite IH, deriv_matches.
Qed.

Lemma countb_app {A : Type} (p : A -> bool) (u v : list A) :
  countb p (u ++ v) = countb p u + countb p v.
Proof. unfold countb. by rewrite List.filter_app, length_app. Qed.

Lemma forallb_impl {A : Type} (p q : A -> bool) (l : list A) :
  (forall x, p x = true -> q x = true) -> forallb p l = true -> forallb q l = true.
Proof.
  intros Hpq. induction l as [|x l IH]; [done|]. simpl.
  intros [Hx Hl]%andb_true_iff. by rewrite (Hpq _ Hx), IH.
Qed.

Lemma is_alpha_acronym_char (c : ascii) :
  Chars.is_alpha c = true -> acronym_char c = true.
Proof. unfold acronym_char. by intros ->. Qed.

Lemma is_az_acronym_char (c : ascii) : Chars.is_az c = true -> acronym_char c = true.
Proof. intros H. apply is_alpha_acronym_char. unfold Chars.is_alpha. by rewrite H. Qed.

Lemma is_AZ_acronym_char (c : ascii) : Chars.is_AZ c = true -> acronym_char c = true.
Proof.
  intros H. apply is_alpha_acronym_char. unfold Chars.is_alpha.
  rewrite H. apply orb_true_r.
Qed.

Lemma countb_is_AZ_one (c : ascii) : Chars.is_AZ c = true -> countb Chars.is_AZ [c] = 1.
Proof. unfold countb. simpl. by intros ->. Qed.

Ltac invert_matches :=
  repeat match goal with
    | H : matches (Seq _ _) _ |- _ => inversion H; subst; clear H
    | H : matches (Alt _ _) _ |- _ => inversion H; subst; clear H
    | H : matches Eps _ |- _ => inversion H; subst; clear H
    | H : matches (Class _) _ |- _ => inversion H; subst; clear H
    | H : matches (Star (Class _)) _ |- _ => apply matches_star_class in H
    end.

Lemma acronym_char_s : acronym_char "s" = true.
Proof. reflexivity. Qed.

Lemma acronym_char_LF : acronym_char Chars.LF = true.
Proof. reflexivity. Qed.

Lemma one_of_acronym_char (c : ascii) :
  Chars.one_of (s "-/") c = true -> acronym_char c = true.
Proof. unfold acronym_char. intros ->. by rewrite orb_true_r. Qed.

Lemma matches_acronym_pattern (w : str) :
  matches acronym_pattern w ->
  2 <= countb Chars.is_AZ w /\
  forallb acronym_char w = true /\
  exists c rest, w = c :: rest /\ Chars.is_alpha c = true.
Proof.
  intros H. unfold acronym_pattern, at_end, Opt, Chr in H. invert_matches.
  all: repeat match goal with
         | H : forallb Chars.is_alpha _ = true |- _ =>
             apply (forallb_impl _ acronym_char _ is_alpha_acronym_char) in H
         | H : Chars.eqb _ _ = true |- _ => apply Ascii.eqb_eq in H; subst
         end.
  all: split; [|split].
  all: try (rewrite ?countb_app;
            repeat match goal with
              | H : Chars.is_AZ ?c = true |- context [countb Chars.is_AZ [?c]] =>
                  rewrite (countb_is_AZ_one c H)
              end; lia).
  all: try (rewrite ?forallb_app;
            repeat match goal with
              | H : forallb acronym_char ?l = true |- context [forallb acronym_char ?l] =>
                  rewrite H
              end;
            cbn [forallb];
            rewrite ?acronym_char_s, ?acronym_char_LF;
            repeat match goal with
              | H : Chars.is_az ?c = true |- context [acronym_char ?c] =>
                  rewrite (is_az_acronym_char c H)
              | H : Chars.is_AZ ?c = true |- context [acronym_char ?c] =>
                  rewrite (is_AZ_acronym_char c H)
              | H : Chars.one_of _ ?c = true |- context [acronym_char ?c] =>
                  rewrite (one_of_acronym_char c H)
              end;
            done).
  all: do 2 eexists; (split; [simpl; reflexivity|]).
  all: unfold Chars.is_alpha;
       repeat match goal with H : _ = true |- _ => rewrite H end;
       by rewrite ?orb_true_r.
Qed.

(** X1. A word that [looks_like_acronym] accepts has at most ten
    characters, at least two of them ASCII capitals; it starts with an
    ASCII letter and holds nothing but ASCII letters, [-], [/] and the line
    feed that [$] admits at the end. *)
Theorem looks_like_acronym_shape (word : str) :
  looks_like_acronym word = true ->
  length word <= 10 /\
  2 <= countb Chars.is_AZ word /\
  forallb acronym_char word = true /\
  exists c rest, word = c :: rest /\ Chars.is_alpha c = true.
Proof.
  unfold looks_like_acronym, MAX_ACRONYM_LENGTH.
  destruct (10 <? length word) eqn:Hlen; [done|]. apply Nat.ltb_ge in Hlen.
  intros H%full_match_matches. split; [done|]. by apply matches_acronym_pattern.
Qed.

Lemma looks_like_acronym_shape_witness :
  length (s "ccRCC") <= 10 /\
  2 <= countb Chars.is_AZ (s "ccRCC") /\
  forallb acronym_char (s "ccRCC") = true /\
  exists c rest, s "ccRCC" = c :: rest /\ Chars.is_alpha c = true.
Proof. apply (looks_like_acronym_shape (s "ccRCC")). reflexivity. Defined.

(** ** Bracket validator *)

Lemma bracket_closes_Some (closer opener : ascii) :
  bracket_closes closer = Some opener ->
  Chars.one_of (s "([{") closer = false /\ Chars.one_of (s "([{") opener = true.
Proof.
  unfold bracket_closes, Chars.eqb.
  destruct (Ascii.eqb closer "]") eqn:H1;
    [apply Ascii.eqb_eq in H1 as ->; by intros [= <-]|].
  destruct (Ascii.eqb closer "}") eqn:H2;
    [apply Ascii.eqb_eq in H2 as ->; by intros [= <-]|].
  destruct (Ascii.eqb closer ")") eqn:H3;
    [apply Ascii.eqb_eq in H3 as ->; by intros [= <-]|].
  done.
Qed.

Lemma chars_eqb_refl (c : ascii) : Chars.eqb c c = true.
Proof. apply Ascii.eqb_refl. Qed.

(** The scan runs through a balanced text and leaves the stack as it was. *)
Lemma bracket_scan_balanced (u : str) :
  balanced u ->
  forall (bracket_stack : list ascii) (rest : str),
    bracket_scan bracket_stack (u ++ rest) = bracket_scan bracket_stack rest.
Proof.
  induction 1 as [|c Hopen Hclose|opener closer u Hclose Hu IH|u v Hu IHu Hv IHv];
    intros bracket_stack rest.
  - done.
  - cbn [app bracket_scan]. by rewrite Hopen, Hclose.
  - apply bracket_closes_Some in Hclose as Hkind. destruct Hkind as [Hc Ho].
    cbn [app bracket_scan]. rewrite Ho, <- app_assoc, IH. cbn [app bracket_scan].
    by rewrite Hc, Hclose, chars_eqb_refl.
  - by rewrite <- app_assoc, IHu, IHv.
Qed.

Lemma closes_prepend (w : str) (bracket_stack : list ascii) (rest : str) :
  balanced w -> closes bracket_stack rest -> closes bracket_stack (w ++ rest).
Proof.
  intros Hw Hrest. destruct Hrest as [u Hu|opener closer below u rest Hu Hc Hrest].
  - constructor. by constructor.
  - rewrite app_assoc. constructor; [by constructor|done|done].
Qed.

Lemma bracket_scan_closes (txt : str) (bracket_stack : list ascii) :
  bracket_scan bracket_stack txt = true -> closes bracket_stack txt.
Proof.
  revert bracket_stack. induction txt as [|c txt IH]; intros bracket_stack;
    cbn [bracket_scan].
  - destruct bracket_stack; [|done]. intros _. repeat constructor.
  - destruct (Chars.one_of (s "([{") c) eqn:Hopen.
    + intros H. apply IH in H.
      inversion H as [|opener closer below u rest Hu Hc Hrest]; subst.
      change (c :: u ++ closer :: rest) with ((c :: u) ++ closer :: rest).
      replace ((c :: u) ++ closer :: rest) with ((c :: u ++ [closer]) ++ rest)
        by (simpl; by rewrite <- app_assoc).
      apply closes_prepend; [by constructor|done].
    + destruct (bracket_closes c) as [opener|] eqn:Hclose.
      * destruct bracket_stack as [|top below]; [done|].
        destruct (Chars.eqb top opener) eqn:Htop; [|done].
        apply Ascii.eqb_eq in Htop as ->. intros H.
        apply (closes_cons opener c below [] txt); [constructor|done|by apply IH].
      * intros H. change (c :: txt) with ([c] ++ txt).
        apply closes_prepend; [by constructor|by apply IH].
Qed.

(** X2. [bracket_match] accepts exactly the texts with well-nested
    brackets. *)
Theorem bracket_match_balanced (txt : str) :
  bracket_match txt = true <-> balanced txt.
Proof.
  unfold bracket_match. split.
  - intros H. apply bracket_scan_closes in H. by inversion H.
  - intros H. rewrite <- (app_nil_r txt). by rewrite (bracket_scan_balanced _ H).
Qed.

(** X3. A balanced text in front of a text does not change the verdict of
    [bracket_match] on it, and a balanced text cannot make up for what
    follows it. *)
Theorem bracket_match_app (u v : str) :
  bracket_match u = true -> bracket_match (u ++ v) = bracket_match v.
Proof.
  unfold bracket_match. intros H. apply bracket_scan_closes in H.
  inversion H; subst. by apply bracket_scan_balanced.
Qed.

Lemma bracket_match_app_witness :
  bracket_match (s "(ADP-ribose)" ++ s " polymerase (PARP") = bracket_match (s " polymerase (PARP").
Proof. apply (bracket_match_app (s "(ADP-ribose)")). reflexivity. Defined.

(** ** Complex-acronym merger *)

(** Induction along the steps of [merge_complex_acronyms]: a window is
    merged and the scan goes on behind it, or one token is kept. *)
Lemma merge_complex_acronyms_ind (P : list WordMetadata -> list WordMetadata -> Prop) :
  P [] [] ->
  (forall w tl, P tl (merge_complex_acronyms tl) ->
                P (w :: tl) (w :: merge_complex_acronyms tl)) ->
  (forall open_br word1 hyphen word2 close_br after,
     merge_window open_br word1 hyphen word2 close_br = true ->
     P after (merge_complex_acronyms after) ->
     P (open_br :: word1 :: hyphen :: word2 :: close_br :: after)
       (open_br :: merged_word word1 hyphen word2 :: close_br
        :: merge_complex_acronyms after)) ->
  forall words, P words (merge_complex_acronyms words).
Proof.
  intros Hnil Hkeep Hmerge words.
  assert (forall n words, length words <= n -> P words (merge_complex_acronyms words))
    as Hall; [|by apply (Hall (length words))].
  clear words. induction n as [|n IH]; intros words Hlen.
  - destruct words; [done|simpl in Hlen; lia].
  - destruct words as [|open_br [|word1 [|hyphen [|word2 [|close_br after]]]]];
      try (simpl in *; by repeat (apply Hkeep || apply Hnil)).
    cbn [merge_complex_acronyms].
    destruct (merge_window open_br word1 hyphen word2 close_br) eqn:Hwin.
    + apply Hmerge; [done|]. apply IH. simpl in Hlen. lia.
    + apply Hkeep. apply IH. simpl in *. lia.
Qed.

Lemma join_merge_complex_acronyms (words : list WordMetadata) :
  join (merge_complex_acronyms words) = join words.
Proof.
  unfold join, texts.
  apply (merge_complex_acronyms_ind
           (fun words merged => concat (map text merged) = concat (map text words))).
  - done.
  - intros w tl IH. simpl. by rewrite IH.
  - intros open_br word1 hyphen word2 close_br after _ IH. simpl.
    rewrite IH. unfold merged_text. by rewrite <- !app_assoc.
Qed.

Lemma join_merged_tokens (txt : str) :
  join (merge_complex_acronyms (split_words txt)) = txt.
Proof.
  rewrite join_merge_complex_acronyms. unfold join.
  rewrite texts_split_words. apply concat_re_split_scan.
Qed.

(** X4. Merging does not change the text: the texts of the merged tokens,
    joined in order, are the texts of the tokens joined in order; so the
    merged tokens of a text still spell the text. *)
Theorem merge_complex_acronyms_join :
  (forall words : list WordMetadata, join (merge_complex_acronyms words) = join words) /\
  (forall txt : str, join (merge_complex_acronyms (split_words txt)) = txt).
Proof. split; [apply join_merge_complex_acronyms|apply join_merged_tokens]. Qed.

(** ** Tokens of the tokenizer *)

Lemma split_words_loop_flags words pos sentence_count todo i w :
  split_words_loop words pos sentence_count todo !! i = Some w ->
  acronym_like w =
    ((0 <? pos + i) && (pos + i <? length words - 1)
     && bool_decide (words !! (pos + i - 1) = Some (s "("))
     && bool_decide (words !! (pos + i + 1) = Some (s ")"))
     && looks_like_acronym (text w)) /\
  sentence_number w
  = sentence_count + countb (fun word => str_eqb word (s ".")) (take i todo).
Proof.
  revert pos sentence_count i.
  induction todo as [|word todo IH]; intros pos sentence_count i; [done|].
  destruct i as [|i]; simpl.
  - intros [= <-]. simpl. rewrite !Nat.add_0_r. split; [done|]. by unfold countb.
  - intros H. apply IH in H as [Hlike Hsent].
    replace (pos + S i) with (S pos + i) by lia. split; [done|].
    rewrite Hsent. unfold countb. cbn [List.filter].
    change (s ".") with ["."%char]. destruct (str_eqb word ["."%char]); cbn [length]; lia.
Qed.

Lemma is_alpha_not_split (c : ascii) :
  Chars.is_alpha c = true -> is_split_char c = false.
Proof. destruct c as [[] [] [] [] [] [] [] []]; by vm_compute. Qed.

Lemma looks_like_acronym_not_split (word : str) :
  looks_like_acronym word = true -> re_match_split word = false.
Proof.
  unfold looks_like_acronym, MAX_ACRONYM_LENGTH.
  destruct (10 <? length word); [done|]. intros H%full_match_matches.
  apply matches_acronym_pattern in H as (_ & _ & c & rest & -> & Hc).
  by apply is_alpha_not_split.
Qed.

(** X5. An acronym-like token of [split_words] stands between a token [(]
    and a token [)]; its text has the shape of an acronym, and the token
    is word-like and no suffix. *)
Theorem split_words_acronym_like (txt : str) (p : nat) (w : WordMetadata) :
  split_words txt !! p = Some w ->
  acronym_like w = true ->
  0 < p /\
  text <$> split_words txt !! (p - 1) = Some (s "(") /\
  text <$> split_words txt !! (p + 1) = Some (s ")") /\
  looks_like_acronym (text w) = true /\
  word_like w = true /\
  suffix w = false.
Proof.
  intros Hp Hlike.
  pose proof (split_words_loop_flags _ _ _ _ _ _ Hp) as [Hflags _].
  pose proof (split_words_lookup _ _ _ Hp) as (_ & Hsuf & Hwl).
  rewrite Hlike in Hflags. symmetry in Hflags. simpl in Hflags.
  repeat (apply andb_true_iff in Hflags as [Hflags ?]).
  apply Nat.ltb_lt in Hflags.
  repeat match goal with H : bool_decide _ = true |- _ => apply bool_decide_eq_true in H end.
  rewrite <- !list_lookup_fmap. fold (texts (split_words txt)).
  rewrite texts_split_words.
  assert (suffix w = false) as Hsuffix.
  { rewrite Hsuf. apply andb_false_iff. right. apply bool_decide_eq_false.
    match goal with H : re_split txt !! (p - 1) = _ |- _ => rewrite H end. by intros [=]. }
  repeat split; try done.
  rewrite Hwl, Hsuffix, looks_like_acronym_not_split by done. done.
Qed.

Lemma split_words_acronym_like_witness :
  0 < 2 /\
  text <$> split_words (s "(WT)") !! (2 - 1) = Some (s "(") /\
  text <$> split_words (s "(WT)") !! (2 + 1) = Some (s ")") /\
  looks_like_acronym (s "WT") = true /\
  word_like (mkWord (s "WT") true true 0 false) = true /\
  suffix (mkWord (s "WT") true true 0 false) = false.
Proof.
  apply (split_words_acronym_like (s "(WT)") 2 (mkWord (s "WT") true true 0 false));
    reflexivity.
Defined.

Lemma countb_fmap {A B : Type} (f : B -> bool) (g : A -> B) (l : list A) :
  countb f (g <$> l) = countb (fun x => f (g x)) l.
Proof.
  unfold countb. induction l as [|x l IH]; [done|]. cbn [fmap list_fmap List.filter].
  destruct (f (g x)); cbn [length]; by rewrite IH.
Qed.

(** X6. The sentence number of a token of [split_words] is the number of
    tokens [.] before it. *)
Theorem split_words_sentence_number (txt : str) (p : nat) (w : WordMetadata) :
  split_words txt !! p = Some w ->
  sentence_number w = countb is_period (take p (split_words txt)).
Proof.
  intros Hp.
  pose proof (split_words_loop_flags _ _ _ _ _ _ Hp) as [_ Hsent].
  rewrite Hsent, Nat.add_0_l, <- texts_split_words. unfold texts.
  change (map text (split_words txt)) with (text <$> split_words txt).
  rewrite <- (fmap_take text), countb_fmap. reflexivity.
Qed.

Lemma split_words_sentence_number_witness :
  sentence_number (mkWord (s "b") false true 1 false)
  = countb is_period (take 4 (split_words (s "a. b"))).
Proof. apply (split_words_sentence_number (s "a. b") 4). reflexivity. Defined.

(** ** Order of the sentences *)

Lemma split_words_loop_sorted words pos sentence_count todo :
  StronglySorted le (sentence_number <$> split_words_loop words pos sentence_count todo) /\
  Forall (le sentence_count)
    (sentence_number <$> split_words_loop words pos sentence_count todo).
Proof.
  revert pos sentence_count.
  induction todo as [|word todo IH]; intros pos sentence_count; [by repeat constructor|].
  cbn [split_words_loop fmap list_fmap].
  set (next := if str_eqb word (s ".") then S sentence_count else sentence_count).
  destruct (IH (S pos) next) as [Hsorted Hle].
  assert (Forall (le sentence_count)
            (sentence_number <$> split_words_loop words (S pos) next todo)) as Hle'.
  { eapply Forall_impl; [exact Hle|]. intros n Hn. simpl in Hn. subst next.
    destruct (str_eqb word (s ".")); lia. }
  split; constructor; simpl; try done.
Qed.

Lemma Forall_sublist_of {A : Type} (P : A -> Prop) (l1 l2 : list A) :
  l1 `sublist_of` l2 -> Forall P l2 -> Forall P l1.
Proof.
  induction 1 as [|x l1 l2 Hsub IH|x l1 l2 Hsub IH]; intros Hall; [done| |].
  - apply Forall_cons in Hall as [Hx Hall]. constructor; auto.
  - apply Forall_cons in Hall as [_ Hall]. auto.
Qed.

Lemma StronglySorted_sublist {A : Type} (R : A -> A -> Prop) (l1 l2 : list A) :
  l1 `sublist_of` l2 -> StronglySorted R l2 -> StronglySorted R l1.
Proof.
  induction 1 as [|x l1 l2 Hsub IH|x l1 l2 Hsub IH]; intros Hsorted; [done| |].
  - apply StronglySorted_inv in Hsorted as [Hl2 Hx]. constructor; [by apply IH|].
    by eapply Forall_sublist_of.
  - apply StronglySorted_inv in Hsorted as [Hl2 _]. by apply IH.
Qed.

Lemma StronglySorted_lookup {A : Type} (R : A -> A -> Prop) (l : list A) i j x y :
  StronglySorted R l -> i < j -> l !! i = Some x -> l !! j = Some y -> R x y.
Proof.
  intros Hsorted. revert i j. induction Hsorted as [|z l Hl IH Hz]; intros i j Hij Hi Hj.
  - done.
  - destruct j as [|j]; [lia|]. simpl in Hj. destruct i as [|i]; simpl in Hi.
    + injection Hi as <-. apply (proj1 (Forall_forall _ _) Hz).
      by eapply list_elem_of_lookup_2.
    + apply (IH i j); [lia|done|done].
Qed.

Lemma merge_complex_acronyms_sentences (words : list WordMetadata) :
  (sentence_number <$> merge_complex_acronyms words)
    `sublist_of` (sentence_number <$> words).
Proof.
  apply (merge_complex_acronyms_ind
           (fun words merged =>
              (sentence_number <$> merged) `sublist_of` (sentence_number <$> words))).
  - done.
  - intros w tl IH. by apply sublist_skip.
  - intros open_br word1 hyphen word2 close_br after _ IH.
    cbn [fmap list_fmap]. apply sublist_skip. simpl. apply sublist_skip.
    do 2 apply sublist_cons. by apply sublist_skip.
Qed.

(** X7. Along the tokens that the alignment engine works on, the tokens of
    [split_words] after [merge_complex_acronyms], the sentence numbers never
    decrease. *)
Theorem merged_sentence_numbers_sorted (txt : str) (i j : nat) (wi wj : WordMetadata) :
  i <= j ->
  merge_complex_acronyms (split_words txt) !! i = Some wi ->
  merge_complex_acronyms (split_words txt) !! j = Some wj ->
  sentence_number wi <= sentence_number wj.
Proof.
  intros Hij Hi Hj. destruct (decide (i = j)) as [->|Hne].
  - rewrite Hi in Hj. injection Hj as ->. done.
  - assert (StronglySorted le
              (sentence_number <$> merge_complex_acronyms (split_words txt))) as Hsorted.
    { eapply StronglySorted_sublist; [apply merge_complex_acronyms_sentences|].
      apply split_words_loop_sorted. }
    apply (StronglySorted_lookup _ _ i j _ _ Hsorted); [lia| |];
      rewrite list_lookup_fmap; by (rewrite Hi || rewrite Hj).
Qed.

Lemma merged_sentence_numbers_sorted_witness :
  sentence_number (mkWord (s "a") false true 0 false)
  <= sentence_number (mkWord (s "AB-CD") true true 1 false).
Proof.
  apply (merged_sentence_numbers_sorted (s "a. (AB-CD)") 0 6); [lia|reflexivity|reflexivity].
Defined.

(** ** Acronym-like tokens *)

Lemma split_words_acronym_shaped (txt : str) : Forall acronym_shaped (split_words txt).
Proof.
  apply Forall_lookup. intros p w Hp Hlike.
  pose proof (split_words_loop_flags _ _ _ _ _ _ Hp) as [Hflags _].
  rewrite Hlike in Hflags. symmetry in Hflags.
  by apply andb_true_iff in Hflags as [_ ?].
Qed.

Lemma merge_complex_acronyms_acronym_shaped (words : list WordMetadata) :
  Forall acronym_shaped words -> Forall acronym_shaped (merge_complex_acronyms words).
Proof.
  apply (merge_complex_acronyms_ind
           (fun words merged => Forall acronym_shaped words -> Forall acronym_shaped merged)).
  - done.
  - intros w tl IH [Hw Htl]%Forall_cons. constructor; auto.
  - intros open_br word1 hyphen word2 close_br after Hwin IH Hall.
    apply Forall_cons in Hall as [Ho Hall]. do 3 apply Forall_cons in Hall as [_ Hall].
    apply Forall_cons in Hall as [Hc Hall].
    repeat constructor; try done; [|by apply IH].
    intros _. simpl. unfold merge_window in Hwin.
    by apply andb_true_iff in Hwin as [_ ?].
Qed.

(** The loop of [mark_acronyms] keeps whatever holds of the empty map and
    is kept by the recording of a definition found at an acronym-like
    token. *)
Lemma mark_all_ind (set_iter : forall A : Type, list A -> list A)
    (words : list WordMetadata) (max_intra_word_letters : nat)
    (Inv : gmap str (gset str) -> Prop) :
  Inv ∅ ->
  (forall acronyms acronym_pos acronym defn,
     words !! acronym_pos = Some acronym ->
     acronym_like acronym = true ->
     find_definition set_iter words max_intra_word_letters acronym_pos (text acronym)
       = Some defn ->
     Inv acronyms -> Inv (add_definition (text acronym) defn acronyms)) ->
  Inv (mark_all set_iter words max_intra_word_letters).
Proof.
  intros Hempty Hadd. unfold mark_all.
  assert (forall item, item ∈ imap (fun pos w => (pos, w)) words ->
                       words !! item.1 = Some item.2) as Hitems.
  { intros item Hitem. by apply elem_of_lookup_imap_1 in Hitem as (i & w & -> & Hw). }
  revert Hitems. generalize (imap (fun pos w => (pos, w)) words).
  intros items. induction items as [|[acronym_pos acronym] items IH] using rev_ind;
    intros Hitems; [done|].
  rewrite foldl_snoc. cbn [mark_step].
  assert (Inv (foldl (mark_step set_iter words max_intra_word_letters) ∅ items)) as Hacc.
  { apply IH. intros x Hx. apply Hitems, elem_of_app. by left. }
  destruct (acronym_like acronym) eqn:Hlike; [|done].
  destruct (find_definition _ _ _ _ _) as [defn|] eqn:Hdefn; [|done].
  apply (Hadd _ acronym_pos); try done.
  apply (Hitems (acronym_pos, acronym)), elem_of_app. right. apply list_elem_of_here.
Qed.

(** X8. Every key of the map that [mark_acronyms] returns has the shape of
    an acronym, and its set of definitions is not empty. *)
Theorem mark_acronyms_keys (set_iter : forall A : Type, list A -> list A)
    (txt : str) (max_intra_word_letters : nat) (a : str) (defns : gset str) :
  mark_acronyms set_iter txt max_intra_word_letters !! a = Some defns ->
  looks_like_acronym a = true /\ defns <> ∅.
Proof.
  unfold mark_acronyms. revert a defns.
  apply (mark_all_ind set_iter (merge_complex_acronyms (split_words txt))
           max_intra_word_letters
           (fun acronyms => forall a defns, acronyms !! a = Some defns ->
                                            looks_like_acronym a = true /\ defns <> ∅)).
  - intros a defns H. by rewrite lookup_empty in H.
  - intros acronyms acronym_pos acronym defn Hpos Hlike _ Hinv a defns.
    unfold add_definition. intros [[<- <-] | [_ H]]%lookup_insert_Some; [|by eapply Hinv].
    split.
    + pose proof (merge_complex_acronyms_acronym_shaped _ (split_words_acronym_shaped txt))
        as Hshaped.
      by apply (proj1 (Forall_lookup _ _) Hshaped _ _ Hpos).
    + intros Hempty. assert (defn ∈ (∅ : gset str)) as Hin; [|by apply elem_of_empty in Hin].
      rewrite <- Hempty. apply elem_of_union. right. by apply elem_of_singleton.
Qed.

Lemma mark_acronyms_keys_witness :
  looks_like_acronym (s "WT") = true /\ ({[ s "wild-type" ]} : gset str) <> ∅.
Proof.
  apply (mark_acronyms_keys insertion_order (s "compared to wild-type (WT)") 2).
  by_running.
Defined.

(** ** Definitions and the text *)

Lemma lstrip_decompose (w : str) : exists ws, w = ws ++ lstrip w.
Proof.
  induction w as [|c w [ws IH]]; [by exists []|]. simpl.
  destruct (Chars.is_space c); [|by exists []].
  exists (c :: ws). simpl. by rewrite <- IH.
Qed.

Lemma lstrip_length (w : str) : length (lstrip w) <= length w.
Proof.
  induction w as [|c w IH]; [done|]. simpl.
  destruct (Chars.is_space c); simpl; lia.
Qed.

Lemma lstrip_lstrip (w : str) : lstrip (lstrip w) = lstrip w.
Proof.
  induction w as [|c w IH]; [done|]. simpl.
  destruct (Chars.is_space c) eqn:Hc; [done|]. simpl. by rewrite Hc.
Qed.

(** A text that [lstrip] leaves alone does not start with white space. *)
Lemma lstrip_fixed_head (c : ascii) (w : str) :
  lstrip (c :: w) = c :: w -> Chars.is_space c = false.
Proof.
  simpl. destruct (Chars.is_space c); [|done]. intros H.
  pose proof (lstrip_length w) as Hlen. rewrite H in Hlen. simpl in Hlen. lia.
Qed.

Lemma strip_decompose (w : str) : exists pre post, w = pre ++ strip w ++ post.
Proof.
  unfold strip. destruct (lstrip_decompose w) as [pre Hpre].
  destruct (lstrip_decompose (rev (lstrip w))) as [post Hpost].
  exists pre, (rev post). rewrite <- rev_app_distr, <- Hpost, rev_involutive. exact Hpre.
Qed.

Lemma strip_strip (w : str) : strip (strip w) = strip w.
Proof.
  unfold strip. set (y := lstrip w). set (z := lstrip (rev y)).
  assert (lstrip (rev z) = rev z) as Hfix.
  { destruct (lstrip_decompose (rev y)) as [ws Hws]. fold z in Hws.
    apply (f_equal (@rev ascii)) in Hws. rewrite rev_involutive, rev_app_distr in Hws.
    destruct (rev z) as [|c r] eqn:Hz; [done|].
    assert (Chars.is_space c = false) as Hc.
    { apply (lstrip_fixed_head c (r ++ rev ws)).
      change (c :: r ++ rev ws) with ((c :: r) ++ rev ws). rewrite <- Hws.
      apply lstrip_lstrip. }
    simpl. by rewrite Hc. }
  rewrite Hfix, rev_involutive. subst z. by rewrite lstrip_lstrip.
Qed.

Lemma join_slice (words : list WordMetadata) (a b : nat) :
  exists pre post, join words = pre ++ join (slice a b words) ++ post.
Proof.
  unfold join, texts, slice.
  exists (concat (map text (take a words))),
         (concat (map text (drop (b - a) (drop a words)))).
  rewrite <- !concat_app, <- !map_app, take_drop, take_drop. done.
Qed.

(** X9. Every definition in the result of [mark_acronyms] occurs in the
    input text as it is, and has no white space at its ends. *)
Theorem mark_acronyms_definitions_in_text (set_iter : forall A : Type, list A -> list A)
    (txt : str) (max_intra_word_letters : nat) (a : str) (defns : gset str) (defn : str) :
  mark_acronyms set_iter txt max_intra_word_letters !! a = Some defns ->
  defn ∈ defns ->
  contains defn txt = true /\ strip defn = defn.
Proof.
  intros Hlookup Hdefn.
  destruct (mark_all_emitted _ _ _ _ _ _ Hlookup Hdefn)
    as (acronym_pos & acronym & start & stop & _ & _ & _ & _ & ->).
  split; [|apply strip_strip].
  apply contains_spec.
  destruct (join_slice (merge_complex_acronyms (split_words txt)) start stop)
    as (pre1 & post1 & Hjoin).
  destruct (strip_decompose (join (slice start stop (merge_complex_acronyms (split_words txt)))))
    as (pre2 & post2 & Hstrip).
  exists (pre1 ++ pre2), (post2 ++ post1).
  transitivity (join (merge_complex_acronyms (split_words txt)));
    [symmetry; apply join_merged_tokens|].
  rewrite Hjoin. rewrite Hstrip at 1. by rewrite <- !app_assoc.
Qed.

Lemma mark_acronyms_definitions_in_text_witness :
  contains (s "wild-type") (s "compared to wild-type (WT)") = true /\
  strip (s "wild-type") = s "wild-type".
Proof.
  apply (mark_acronyms_definitions_in_text insertion_order
           (s "compared to wild-type (WT)") 2 (s "WT") {[ s "wild-type" ]}).
  - by_running.
  - by apply elem_of_singleton.
Defined.

(** ** Texts without brackets *)

Lemma elem_of_concat {A : Type} (x : A) (l : list A) (ls : list (list A)) :
  l ∈ ls -> x ∈ l -> x ∈ concat ls.
Proof.
  induction 1 as [ls|l' ls Hl IH]; intros Hx; simpl; apply elem_of_app; auto.
Qed.

Lemma re_split_paren (txt : str) : s "(" ∈ re_split txt -> "("%char ∈ txt.
Proof.
  intros H.
  assert (concat (re_split txt) = txt) as Heq by apply (concat_re_split_scan false [] txt).
  rewrite <- Heq.
  apply (elem_of_concat _ (s "(")); [done|apply list_elem_of_here].
Qed.

Lemma split_words_plain (txt : str) :
  "("%char ∉ txt -> Forall plain_token (split_words txt).
Proof.
  intros Hno. apply Forall_lookup. intros p w Hp. split.
  - intros Htext. apply Hno, re_split_paren.
    apply split_words_lookup in Hp as [Hp _]. rewrite Htext in Hp.
    by eapply list_elem_of_lookup_2.
  - destruct (acronym_like w) eqn:Hlike; [|done]. exfalso.
    pose proof (split_words_loop_flags _ _ _ _ _ _ Hp) as [Hflags _].
    rewrite Hlike in Hflags. symmetry in Hflags.
    repeat (apply andb_true_iff in Hflags as [Hflags ?]).
    match goal with
    | H : bool_decide (_ !! (0 + p - 1) = _) = true |- _ =>
        apply bool_decide_eq_true in H; apply list_elem_of_lookup_2 in H
    end.
    by apply Hno, re_split_paren.
Qed.

Lemma merge_complex_acronyms_plain (words : list WordMetadata) :
  Forall plain_token words -> Forall plain_token (merge_complex_acronyms words).
Proof.
  apply (merge_complex_acronyms_ind
           (fun words merged => Forall plain_token words -> Forall plain_token merged)).
  - done.
  - intros w tl IH [Hw Htl]%Forall_cons. constructor; auto.
  - intros open_br word1 hyphen word2 close_br after Hwin _ [[Hopen _] _]%Forall_cons.
    unfold merge_window, str_eqb in Hwin.
    repeat (apply andb_true_iff in Hwin as [Hwin ?]).
    by apply bool_decide_eq_true in Hwin.
Qed.

(** X10. A text without the character [(] has no acronym: [mark_acronyms]
    returns the empty map on it. *)
Theorem mark_acronyms_no_bracket (set_iter : forall A : Type, list A -> list A)
    (txt : str) (max_intra_word_letters : nat) :
  "("%char ∉ txt ->
  mark_acronyms set_iter txt max_intra_word_letters = ∅.
Proof.
  intros Hno. unfold mark_acronyms.
  pose proof (merge_complex_acronyms_plain _ (split_words_plain txt Hno)) as Hplain.
  apply (mark_all_ind set_iter (merge_complex_acronyms (split_words txt))
           max_intra_word_letters (fun acronyms => acronyms = ∅)); [done|].
  intros acronyms acronym_pos acronym defn Hpos Hlike _ _.
  destruct (proj1 (Forall_lookup _ _) Hplain _ _ Hpos) as [_ Hnot]. congruence.
Qed.

Lemma mark_acronyms_no_bracket_witness :
  mark_acronyms insertion_order (s "EGFR) are found in tumors") 2 = ∅.
Proof.
  apply (mark_acronyms_no_bracket insertion_order (s "EGFR) are found in tumors") 2).
  by_running.
Defined.

(** ** Spans of definitions *)

Lemma countb_take_le {A : Type} (p : A -> bool) (n : nat) (l : list A) :
  countb p (take n l) <= countb p l.
Proof. rewrite <- (take_drop n l) at 2. rewrite countb_app. lia. Qed.

Lemma foldl_min_le_init (v : nat) (vs : list nat) : foldl Nat.min v vs <= v.
Proof.
  revert v. induction vs as [|y vs IH]; intros v; simpl; [done|].
  specialize (IH (Nat.min v y)). lia.
Qed.

Section Spans.

Variable set_iter : forall A : Type, list A -> list A.
Hypothesis set_iter_perm : forall (A : Type) (l : list A), set_iter A l ≡ₚ l.

Variable words : list WordMetadata.
Variable max_intra_word_letters : nat.

Lemma collect_matches_budget acronym_pos letters k matches :
  Forall (Forall (within_budget words max_intra_word_letters acronym_pos letters)) matches ->
  Forall (Forall (within_budget words max_intra_word_letters acronym_pos letters))
    (collect_matches words max_intra_word_letters acronym_pos letters k matches).
Proof.
  revert matches. induction k as [|words_pos IH]; intros matches Hm; [done|].
  simpl. destruct (negb _); [done|].
  destruct (_ <? _) eqn:Hover; [done|]. apply Nat.ltb_ge in Hover.
  apply IH. by apply add_matches_Forall.
Qed.

Lemma best_path_for_forall (P : nat -> Prop) acronym_pos letters best_path :
  Forall (Forall P) (letter_matches words max_intra_word_letters acronym_pos letters) ->
  best_path_for set_iter words max_intra_word_letters acronym_pos letters = Some best_path ->
  path_forall P best_path.
Proof.
  unfold best_path_for. intros Hm.
  destruct (letter_matches _ _ _ _) as [|first others]; [done|].
  apply Forall_cons in Hm as [Hfirst Hothers].
  destruct first as [|c first]; [done|].
  destruct (filter_paths _ _ _) as [|p ps] eqn:Hfiltered; [done|].
  intros [= <-]. apply interpolate_forall.
  pose proof (min_by_key_elem p ps) as Hbest. rewrite <- Hfiltered in Hbest.
  apply list_elem_of_In, filter_In in Hbest as [Hbest _].
  apply list_elem_of_In in Hbest.
  by apply (enumerate_paths_forall set_iter set_iter_perm words P _ _ _ Hfirst Hothers Hbest).
Qed.

Lemma definition_span_budget acronym_pos letters start stop :
  definition_span set_iter words max_intra_word_letters acronym_pos letters
    = Some (start, stop) ->
  countb real_word (slice start stop words) <= length letters + max_intra_word_letters.
Proof.
  unfold definition_span.
  destruct (best_path_for _ _ _ _ _) as [best_path|] eqn:Hbest; [|done].
  destruct (count_nones best_path =? 0); [|done].
  destruct (non_none_min best_path) as [c|] eqn:Hmin; [|done].
  intros [= <- <-].
  assert (within_budget words max_intra_word_letters acronym_pos letters c) as Hc.
  { apply (best_path_for_forall _ acronym_pos letters best_path); [|done|].
    - apply collect_matches_budget, Forall_fmap, Forall_forall. intros x _. constructor.
    - by apply non_none_min_elem. }
  unfold within_budget, words_covered in Hc. etrans; [|exact Hc].
  unfold slice.
  replace (acronym_pos - 1 - c) with (Nat.min (acronym_pos - 1 - c) (acronym_pos - c)) by lia.
  rewrite <- take_take. apply countb_take_le.
Qed.

End Spans.

(** X11. Whatever the order in which the sets are iterated: for every
    token of the text and every span [start .. stop) that the engine emits
    for it ([definition_span]), the span ends right before the bracket of
    that token and holds at most [len(acronym) + max_intra_word_letters]
    real words (word-like tokens that are no stop words). *)
Theorem definition_within_budget (set_iter : forall A : Type, list A -> list A)
    (txt : str) (max_intra_word_letters : nat)
    (acronym_pos : nat) (acronym : WordMetadata) (start stop : nat) :
  (forall (A : Type) (l : list A), set_iter A l ≡ₚ l) ->
  let words := merge_complex_acronyms (split_words txt) in
  words !! acronym_pos = Some acronym ->
  definition_span set_iter words max_intra_word_letters acronym_pos (text acronym)
    = Some (start, stop) ->
  stop = acronym_pos - 1 /\
  countb real_word (slice start stop words)
  <= length (text acronym) + max_intra_word_letters.
Proof.
  intros Hperm words Hpos Hspan. split.
  - by apply (definition_span_in_sentence _ Hperm) in Hspan as [-> _].
  - by apply (definition_span_budget set_iter Hperm _ _ acronym_pos).
Qed.

Lemma definition_within_budget_witness :
  let words := merge_complex_acronyms (split_words (s "compared to wild-type (WT)")) in
  9 = 10 - 1 /\
  countb real_word (slice 4 9 words) <= length (s "WT") + 2.
Proof.
  intros words.
  apply (definition_within_budget insertion_order (s "compared to wild-type (WT)") 2
           10 (mkWord (s "WT") true true 0 false) 4 9); [done|reflexivity|reflexivity].
Defined.

(** ** The first letter of a definition *)

Lemma add_matches_first words words_pos letters matches :
  first_matches_start words letters matches ->
  first_matches_start words letters (add_matches words words_pos letters matches).
Proof.
  destruct letters as [|letter letters]; [by destruct matches|].
  destruct matches as [|first others]; [done|]. simpl. intros Hfirst.
  destruct (default false _) eqn:Hstart; [|done]. by constructor.
Qed.

Lemma collect_matches_first words max_intra_word_letters acronym_pos letters k matches :
  first_matches_start words letters matches ->
  first_matches_start words letters
    (collect_matches words max_intra_word_letters acronym_pos letters k matches).
Proof.
  revert matches. induction k as [|words_pos IH]; intros matches Hm; [done|].
  simpl. destruct (negb _); [done|]. destruct (_ <? _); [done|].
  by apply IH, add_matches_first.
Qed.

Lemma non_nones_head (c0 : nat) (rest : path) : c0 ∈ non_nones (Some c0 :: rest).
Proof. apply list_elem_of_here. Qed.

Lemma headed_snoc (c0 : nat) (p : path) (choice : option nat) :
  headed c0 p -> continuation_allowed (non_none_max p) choice = true ->
  headed c0 (p ++ [choice]).
Proof.
  intros [[rest ->] Hle] Hallowed. split; [by exists (rest ++ [choice])|].
  apply path_forall_snoc; [done|]. intros c ->.
  unfold continuation_allowed in Hallowed.
  destruct (non_none_max (Some c0 :: rest)) as [m|] eqn:Hmax.
  - apply Nat.ltb_lt in Hallowed.
    pose proof (non_none_max_bound _ _ _ Hmax (non_nones_head c0 rest)). lia.
  - apply non_none_max_None in Hmax. pose proof (non_nones_head c0 rest) as Hin.
    rewrite Hmax in Hin. by apply elem_of_nil in Hin.
Qed.

Lemma interpolate_headed words (c0 i : nat) todo best_path :
  1 <= i -> headed c0 best_path -> headed c0 (interpolate words i todo best_path).
Proof.
  revert i best_path. induction todo as [|[m letter] todo IH]; intros i best_path Hi Hp; [done|].
  simpl. destruct m as [c|]; [apply IH; [lia|done]|].
  destruct (best_path !! (i - 1)) as [[prev_choice|]|] eqn:Hprev; [|done|done].
  destruct (in_stop_words _); [apply IH; [lia|done]|].
  destruct (_ && _); [|apply IH; [lia|done]].
  apply IH; [lia|]. destruct Hp as [[rest ->] Hle]. split.
  - destruct i as [|i]; [lia|]. by eexists.
  - intros c Hc. apply list_elem_of_lookup in Hc as (j & Hj).
    apply list_lookup_insert_Some in Hj as [(-> & [= <-] & _) | (_ & Hj)].
    + apply Hle. by apply list_elem_of_lookup_2 in Hprev.
    + apply Hle. by apply list_elem_of_lookup_2 in Hj.
Qed.

Lemma non_none_min_head (c0 : nat) (rest : path) :
  non_none_min (Some c0 :: rest) = Some (foldl Nat.min c0 (non_nones rest)).
Proof. reflexivity. Qed.

Lemma headed_min (c0 : nat) (p : path) (start : nat) :
  headed c0 p -> non_none_min p = Some start -> start = c0.
Proof.
  intros [[rest ->] Hle] Hmin.
  pose proof (Hle _ (non_none_min_elem _ _ Hmin)) as Hge.
  rewrite non_none_min_head in Hmin. injection Hmin as <-.
  pose proof (foldl_min_le_init c0 (non_nones rest)). lia.
Qed.

Section FirstLetter.

Variable set_iter : forall A : Type, list A -> list A.
Hypothesis set_iter_perm : forall (A : Type) (l : list A), set_iter A l ≡ₚ l.

Variable words : list WordMetadata.
Variable max_intra_word_letters : nat.

Lemma foldl_extend_paths_headed (first : list nat) (others : list (list nat))
    (paths : list path) :
  (forall p, p ∈ paths -> exists c0, c0 ∈ first /\ headed c0 p) ->
  forall q, q ∈ foldl (extend_paths set_iter) paths others ->
            exists c0, c0 ∈ first /\ headed c0 q.
Proof.
  revert paths. induction others as [|choices others IH]; intros paths Hpaths; [done|].
  simpl. apply IH. intros q Hq.
  apply (elem_of_extend_paths _ set_iter_perm) in Hq as (p & choice & -> & Hp & Hallowed & _).
  destruct (Hpaths _ Hp) as (c0 & Hc0 & Hhead). exists c0. split; [done|].
  by apply headed_snoc.
Qed.

Lemma best_path_for_headed acronym_pos letter letters best_path :
  best_path_for set_iter words max_intra_word_letters acronym_pos (letter :: letters)
    = Some best_path ->
  exists c0, token_starts_with words letter c0 /\ headed c0 best_path.
Proof.
  unfold best_path_for.
  assert (first_matches_start words (letter :: letters)
            (letter_matches words max_intra_word_letters acronym_pos (letter :: letters)))
    as Hm by (apply collect_matches_first; simpl; constructor).
  destruct (letter_matches _ _ _ _) as [|first others]; [done|]. simpl in Hm.
  destruct first as [|c first]; [done|].
  destruct (filter_paths _ _ _) as [|p ps] eqn:Hfiltered; [done|].
  intros [= <-].
  pose proof (min_by_key_elem p ps) as Hbest. rewrite <- Hfiltered in Hbest.
  apply list_elem_of_In, filter_In in Hbest as [Hbest _].
  apply list_elem_of_In in Hbest.
  apply (foldl_extend_paths_headed (c :: first)) in Hbest as (c0 & Hc0 & Hhead).
  - exists c0. split; [by apply (proj1 (Forall_forall _ _) Hm)|].
    by apply interpolate_headed.
  - intros q Hq. apply list_elem_of_fmap in Hq as (c0 & -> & Hc0).
    apply list_elem_of_In, filter_In in Hc0 as [Hc0 _].
    apply list_elem_of_In, (proj1 (elem_of_set_iter _ set_iter_perm _ _)) in Hc0.
    exists c0. split; [done|]. split; [by exists []|].
    intros c' Hc'. apply list_elem_of_singleton in Hc' as [= ->]. done.
Qed.

Lemma definition_span_first_letter acronym_pos letter letters start stop :
  definition_span set_iter words max_intra_word_letters acronym_pos (letter :: letters)
    = Some (start, stop) ->
  start < stop /\ token_starts_with words letter start.
Proof.
  intros Hspan.
  pose proof (definition_span_in_sentence _ set_iter_perm _ _ _ _ _ _ Hspan)
    as [-> [Hlt _]].
  split; [done|]. unfold definition_span in Hspan.
  destruct (best_path_for _ _ _ _ _) as [best_path|] eqn:Hbest; [|done].
  destruct (count_nones best_path =? 0); [|done].
  destruct (non_none_min best_path) as [c|] eqn:Hmin; [|done].
  injection Hspan as <-.
  apply best_path_for_headed in Hbest as (c0 & Hc0 & Hhead).
  by rewrite (headed_min _ _ _ Hhead Hmin).
Qed.

End FirstLetter.

Lemma looks_like_acronym_head (word : str) :
  looks_like_acronym word = true ->
  exists c rest, word = c :: rest /\ Chars.is_alpha c = true.
Proof.
  unfold looks_like_acronym, MAX_ACRONYM_LENGTH.
  destruct (10 <? length word); [done|]. intros H%full_match_matches.
  by apply matches_acronym_pattern in H as (_ & _ & H).
Qed.

Lemma lower_alpha_is_az (c : ascii) :
  Chars.is_alpha c = true -> Chars.is_az (Chars.lower c) = true.
Proof. destruct c as [[] [] [] [] [] [] [] []]; by vm_compute. Qed.

Lemma lower_is_az_not_space (c : ascii) :
  Chars.is_az (Chars.lower c) = true -> Chars.is_space c = false.
Proof. destruct c as [[] [] [] [] [] [] [] []]; by vm_compute. Qed.

Lemma lstrip_snoc (w : str) (c : ascii) :
  Chars.is_space c = false -> exists u, lstrip (w ++ [c]) = u ++ [c].
Proof.
  intros Hc. induction w as [|d w [u IH]]; simpl.
  - rewrite Hc. by exists [].
  - destruct (Chars.is_space d); [by exists u|]. by exists (d :: w).
Qed.

Lemma strip_cons (c : ascii) (w : str) :
  Chars.is_space c = false -> exists rest, strip (c :: w) = c :: rest.
Proof.
  intros Hc. unfold strip. simpl. rewrite Hc. simpl.
  destruct (lstrip_snoc (rev w) c Hc) as [u ->].
  exists (rev u). by rewrite rev_app_distr.
Qed.

Lemma join_slice_head (words : list WordMetadata) (start stop : nat) (w : WordMetadata) :
  start < stop -> words !! start = Some w ->
  exists rest, join (slice start stop words) = text w ++ rest.
Proof.
  intros Hlt Hw. unfold slice. rewrite (drop_S _ _ _ Hw).
  replace (stop - start) with (S (stop - start - 1)) by lia.
  by eexists.
Qed.

(** X12. Whatever the order in which the sets are iterated, every
    definition in the result of [mark_acronyms] starts with the first letter
    of its acronym, up to case. *)
Theorem definition_first_letter (set_iter : forall A : Type, list A -> list A)
    (txt : str) (max_intra_word_letters : nat) (a : str) (defns : gset str) (defn : str) :
  (forall (A : Type) (l : list A), set_iter A l ≡ₚ l) ->
  mark_acronyms set_iter txt max_intra_word_letters !! a = Some defns ->
  defn ∈ defns ->
  exists (c : ascii) (rest : str) (letter : ascii) (letters : str),
    defn = c :: rest /\ a = letter :: letters /\ Chars.lower c = Chars.lower letter.
Proof.
  intros Hperm Hlookup Hdefn.
  destruct (mark_all_emitted _ _ _ _ _ _ Hlookup Hdefn)
    as (acronym_pos & acronym & start & stop & Hpos & Hlike & Htext & Hspan & ->).
  pose proof (merge_complex_acronyms_acronym_shaped _ (split_words_acronym_shaped txt))
    as Hshaped.
  pose proof (proj1 (Forall_lookup _ _) Hshaped _ _ Hpos Hlike) as Hlooks.
  rewrite Htext in Hlooks.
  apply looks_like_acronym_head in Hlooks as (letter & letters & -> & Hletter).
  apply (definition_span_first_letter _ Hperm) in Hspan as [Hlt Hstart].
  unfold token_starts_with in Hstart.
  destruct (merge_complex_acronyms (split_words txt) !! start) as [w|] eqn:Hw; [|done].
  simpl in Hstart. unfold starts_with_letter in Hstart.
  destruct (text w) as [|c tail] eqn:Hc; [done|].
  apply Ascii.eqb_eq in Hstart.
  destruct (join_slice_head _ _ _ _ Hlt Hw) as [rest' ->]. rewrite Hc. simpl.
  assert (Chars.is_space c = false) as Hspace.
  { apply lower_is_az_not_space. rewrite Hstart. by apply lower_alpha_is_az. }
  destruct (strip_cons c (tail ++ rest') Hspace) as [rest ->].
  by exists c, rest, letter, letters.
Qed.

Lemma definition_first_letter_witness :
  exists (c : ascii) (rest : str) (letter : ascii) (letters : str),
    s "wild-type" = c :: rest /\ s "WT" = letter :: letters /\
    Chars.lower c = Chars.lower letter.
Proof.
  apply (definition_first_letter insertion_order (s "compared to wild-type (WT)") 2
           (s "WT") {[ s "wild-type" ]}).
  - done.
  - by_running.
  - by apply elem_of_singleton.
Defined.

(** ** Spellings with the same key *)

Lemma lstrip_spaces (w : str) :
  exists ws, w = ws ++ lstrip w /\ forallb Chars.is_space ws = true.
Proof.
  induction w as [|c w (ws & IH & Hws)]; [by exists []|]. simpl.
  destruct (Chars.is_space c) eqn:Hc; [|by exists []].
  exists (c :: ws). simpl. by rewrite <- IH, Hc, Hws.
Qed.

Lemma strip_spaces (w : str) :
  exists pre post,
    w = pre ++ strip w ++ post /\
    forallb Chars.is_space pre = true /\ forallb Chars.is_space post = true.
Proof.
  unfold strip. destruct (lstrip_spaces w) as (pre & Hpre & Hpre_sp).
  destruct (lstrip_spaces (rev (lstrip w))) as (post & Hpost & Hpost_sp).
  exists pre, (rev post). split; [|split; [done|]].
  - rewrite <- rev_app_distr, <- Hpost, rev_involutive. exact Hpre.
  - rewrite forallb_forall in *. intros c Hc. apply Hpost_sp. by apply in_rev.
Qed.

Lemma split_scan_leading (ws rest : str) :
  forallb Chars.is_space ws = true -> split_scan [] (ws ++ rest) = split_scan [] rest.
Proof.
  induction ws as [|c ws IH]; [done|]. simpl.
  intros [-> Hws]%andb_true_iff. by apply IH.
Qed.

Lemma split_scan_spaces (cur ws : str) :
  forallb Chars.is_space ws = true ->
  split_scan cur ws = match cur with [] => [] | _ :: _ => [cur] end.
Proof.
  revert cur. induction ws as [|c ws IH]; intros cur; [done|]. simpl.
  intros [-> Hws]%andb_true_iff. destruct cur; rewrite IH; done.
Qed.

Lemma split_scan_trailing (cur w ws : str) :
  forallb Chars.is_space ws = true -> split_scan cur (w ++ ws) = split_scan cur w.
Proof.
  intros Hws. revert cur. induction w as [|c w IH]; intros cur; simpl.
  - rewrite split_scan_spaces by done. by destruct cur.
  - destruct (Chars.is_space c); [destruct cur|]; by rewrite IH.
Qed.

Lemma replace_chars_app (cs u v : str) :
  replace_chars cs (u ++ v) = replace_chars cs u ++ replace_chars cs v.
Proof. apply map_app. Qed.

Lemma replace_chars_spaces (cs ws : str) :
  forallb Chars.is_space ws = true ->
  forallb Chars.is_space (replace_chars cs ws) = true.
Proof.
  induction ws as [|c ws IH]; [done|]. simpl.
  intros [Hc Hws]%andb_true_iff. rewrite IH by done.
  by destruct (Chars.one_of cs c); [|rewrite Hc].
Qed.

Lemma blank_marks_two_passes (defn : str) :
  replace_chars (s ",") (replace_chars (s "-=/") defn) = blank_marks defn.
Proof.
  unfold blank_marks, replace_chars. rewrite map_map. apply map_ext. intros c.
  destruct c as [[] [] [] [] [] [] [] []]; by vm_compute.
Qed.

Lemma blank_marks_lower (defn : str) :
  blank_marks (lower (blank_marks defn)) = blank_marks (lower defn).
Proof.
  unfold blank_marks, replace_chars, lower. rewrite !map_map. apply map_ext. intros c.
  destruct c as [[] [] [] [] [] [] [] []]; by vm_compute.
Qed.

(** The words of a definition do not depend on the stripping: they are the
    words of the lower-cased definition with its marks blanked. *)
Lemma defn_words_blank_marks (defn : str) :
  defn_words defn = split (blank_marks (lower defn)).
Proof.
  unfold defn_words. rewrite blank_marks_two_passes.
  destruct (strip_spaces (lower defn)) as (pre & post & Hdefn & Hpre & Hpost).
  rewrite Hdefn at 2. unfold blank_marks. rewrite !replace_chars_app. unfold split.
  rewrite split_scan_leading by (by apply replace_chars_spaces).
  by rewrite split_scan_trailing by (by apply replace_chars_spaces).
Qed.

(** X14. Two definitions that differ only in case and in the choice among
    [-], [=], [/], [,] and the space get the same key. *)
Theorem normalize_defn_spelling (defn1 defn2 : str) :
  blank_marks (lower defn1) = blank_marks (lower defn2) ->
  normalize_defn defn1 = normalize_defn defn2.
Proof.
  intros H. unfold normalize_defn.
  fold (defn_words defn1). fold (defn_words defn2).
  by rewrite !defn_words_blank_marks, H.
Qed.

Lemma normalize_defn_spelling_witness :
  normalize_defn (s "Wild-Type") = normalize_defn (s "wild type").
Proof. apply (normalize_defn_spelling (s "Wild-Type") (s "wild type")). reflexivity. Defined.

(** ** The helpers on paths *)

Lemma foldl_max_elem (v : nat) (vs : list nat) : foldl Nat.max v vs ∈ v :: vs.
Proof.
  revert v. induction vs as [|y vs IH]; intros v; simpl; [apply list_elem_of_here|].
  specialize (IH (Nat.max v y)). apply elem_of_cons in IH as [-> | IH].
  - destruct (Nat.max_spec v y) as [[_ ->] | [_ ->]];
      [apply list_elem_of_further|]; apply list_elem_of_here.
  - by do 2 apply list_elem_of_further.
Qed.

Lemma foldl_min_le (v : nat) (vs : list nat) (x : nat) :
  x ∈ v :: vs -> foldl Nat.min v vs <= x.
Proof.
  revert v. induction vs as [|y vs IH]; intros v Hx; simpl.
  - apply list_elem_of_singleton in Hx as ->. done.
  - pose proof (foldl_min_le_init (Nat.min v y) vs) as Hinit.
    apply elem_of_cons in Hx as [-> | Hx]; [lia|].
    apply elem_of_cons in Hx as [-> | Hx]; [lia|].
    apply IH. by apply list_elem_of_further.
Qed.

Lemma elem_of_non_nones (p : path) (c : nat) : c ∈ non_nones p <-> Some c ∈ p.
Proof.
  unfold non_nones. rewrite list_elem_of_omap. split.
  - intros (x & Hx & Hid). simpl in Hid. by subst.
  - intros H. by exists (Some c).
Qed.

Lemma non_nones_nil (p : path) : non_nones p = [] <-> count_nones p = length p.
Proof.
  unfold count_nones, countb. induction p as [|[c|] p IH]; simpl.
  - done.
  - split; [done|]. intros H.
    pose proof (filter_length_le is_none p). lia.
  - rewrite IH. split; [by intros ->|by intros [= ->]].
Qed.

(** X15. [non_none_apply] with [max] (with [min]) returns [None] exactly
    when every item of the list is [None]; otherwise it returns an item of
    the list that no other item exceeds (that exceeds no other item). *)
Theorem non_none_apply_bounds (p : path) :
  (non_none_max p = None <-> count_nones p = length p) /\
  (non_none_min p = None <-> count_nones p = length p) /\
  (forall m, non_none_max p = Some m ->
             Some m ∈ p /\ forall c, Some c ∈ p -> c <= m) /\
  (forall m, non_none_min p = Some m ->
             Some m ∈ p /\ forall c, Some c ∈ p -> m <= c).
Proof.
  rewrite <- non_nones_nil. unfold non_none_max, non_none_min.
  destruct (non_nones p) as [|v vs] eqn:Hp.
  - split; [done|]. split; [done|]. split; intros m H; discriminate.
  - split; [split; intros H; discriminate|].
    split; [split; intros H; discriminate|].
    split; intros m [= <-]; (split; [apply elem_of_non_nones; rewrite Hp|]).
    + apply foldl_max_elem.
    + intros c Hc%elem_of_non_nones. rewrite Hp in Hc.
      destruct (foldl_max_le v vs) as [H1 H2].
      apply elem_of_cons in Hc as [-> | Hc]; [done|by apply H2].
    + apply foldl_min_elem.
    + intros c Hc%elem_of_non_nones. rewrite Hp in Hc. by apply foldl_min_le.
Qed.


Lemma non_none_apply_bounds_witness :
  Some 7 ∈ [Some 3; None; Some 7] /\ forall c, Some c ∈ [Some 3; None; Some 7] -> c <= 7.
Proof.
  destruct (non_none_apply_bounds [Some 3; None; Some 7]) as (_ & _ & Hmax & _).
  apply (Hmax 7). reflexivity.
Defined.

(** ** Number and places of the tokens *)

Lemma odd_S (n : nat) : Nat.odd (S n) = negb (Nat.odd n).
Proof. by rewrite Nat.odd_succ, Nat.negb_odd. Qed.

Lemma re_split_scan_length (in_space : bool) (cur rest : str) :
  Nat.odd (length (re_split_scan in_space cur rest)) = negb in_space.
Proof.
  revert in_space cur. induction rest as [|c rest IH]; intros in_space cur.
  - by destruct in_space.
  - cbn [re_split_scan].
    destruct (Chars.is_space c), (is_split_punct c), in_space;
      cbn [length]; rewrite ?odd_S, IH; done.
Qed.

(** X16. [split_words] returns an odd number of tokens, and its word-like
    tokens stand at the even positions and hold no character that the
    split pattern matches. *)
Theorem split_words_places (txt : str) :
  Nat.odd (length (split_words txt)) = true /\
  forall (p : nat) (w : WordMetadata),
    split_words txt !! p = Some w -> word_like w = true ->
    Nat.odd p = false /\ is_piece (text w) = true.
Proof.
  split.
  - rewrite <- (length_map text). fold (texts (split_words txt)).
    rewrite texts_split_words. apply (re_split_scan_length false).
  - intros p w Hp Hwl.
    pose proof (split_words_shape _ _ _ Hp) as Hshape.
    apply split_words_lookup in Hp as (_ & _ & Hword). rewrite Hwl in Hword.
    symmetry in Hword. apply andb_true_iff in Hword as [Hmatch _].
    apply negb_true_iff in Hmatch.
    destruct (Nat.odd p); [congruence|done].
Qed.

Lemma split_words_places_witness :
  Nat.odd 2 = false /\ is_piece (s "WT") = true.
Proof.
  destruct (split_words_places (s "(WT)")) as [_ Hplaces].
  apply (Hplaces 2 (mkWord (s "WT") true true 0 false)); reflexivity.
Defined.
